(** * PDF segmentation by vertical whitespace: a model of [main.py]

    The script has two functions.  [analyze_whitespace] walks the pages
    of a document, keeps the text blocks whose stripped text is not
    empty, sorts every page by [top] and measures the vertical gap
    between consecutive records.  [segment_pdf] groups the gaps by their
    value rounded to the nearest 0.5, picks boundaries greedily and
    writes one output document per segment.

    Modelling choices.
    - Coordinates are exact rationals ([Q]).  Python computes on
      binary64 floats; every finite float is a rational, doubling and
      halving are exact on floats, so the model agrees with the program
      wherever the float operations do not round or overflow.
    - A text is the byte string of its UTF-8 encoding; stripping removes
      the encodings of the white space characters of Python.
    - A document is what [fitz.open] returns: a list of pages, each with
      its text blocks and its rectangle.
    - Python's [list.sort] and [sorted] are stable; they are modelled by
      a stable insertion sort ([sort_by]).
    - The dictionary of [group_whitespace] is an association list in
      insertion order (Python dictionaries iterate in insertion order).
    - Effects on the outside world (directory creation, printing,
      saving a file) are recorded as a list of events. *)

From Stdlib Require Import List Bool Arith ZArith QArith Qabs Lia Lqa.
From Stdlib Require Import String Ascii DecimalString.
From Stdlib Require Import Sorted Permutation.
Import ListNotations.

(** ** Text *)

Module Text.

Local Open Scope nat_scope.

(** A text is held as the bytes of its UTF-8 encoding.  The characters
    that [str.strip()] removes are those for which [str.isspace] holds:
    U+0009 to U+000D, U+001C to U+001F, U+0020, U+0085, U+00A0, U+1680,
    U+2000 to U+200A, U+2028, U+2029, U+202F, U+205F and U+3000.  They
    are encoded on one, two or three bytes. *)

(** TAB, LF, VT, FF, CR, FS, GS, RS, US and the space. *)
Definition space1 (c1 : ascii) : bool :=
  let n := nat_of_ascii c1 in
  ((9 <=? n) && (n <=? 13)) || ((28 <=? n) && (n <=? 32)).

(** U+0085 (C2 85) and U+00A0 (C2 A0). *)
Definition space2 (c1 c2 : ascii) : bool :=
  let a := nat_of_ascii c1 in
  let b := nat_of_ascii c2 in
  (a =? 194) && ((b =? 133) || (b =? 160)).

(** U+1680 (E1 9A 80), U+2000 to U+200A (E2 80 80 to E2 80 8A), U+2028,
    U+2029, U+202F (E2 80 A8, E2 80 A9, E2 80 AF), U+205F (E2 81 9F) and
    U+3000 (E3 80 80). *)
Definition space3 (c1 c2 c3 : ascii) : bool :=
  let a := nat_of_ascii c1 in
  let b := nat_of_ascii c2 in
  let c := nat_of_ascii c3 in
  ((a =? 225) && (b =? 154) && (c =? 128))
  || ((a =? 226) && (b =? 128)
      && (((128 <=? c) && (c <=? 138))
          || (c =? 168) || (c =? 169) || (c =? 175)))
  || ((a =? 226) && (b =? 129) && (c =? 159))
  || ((a =? 227) && (b =? 128) && (c =? 128)).

(** The text after its first character, when that character is white
    space. *)
Definition space_prefix (s : string) : option string :=
  match s with
  | EmptyString => None
  | String c1 r1 =>
      if space1 c1 then Some r1
      else
        match r1 with
        | EmptyString => None
        | String c2 r2 =>
            if space2 c1 c2 then Some r2
            else
              match r2 with
              | EmptyString => None
              | String c3 r3 => if space3 c1 c2 c3 then Some r3 else None
              end
        end
  end.

(** [s.lstrip()] *)
Fixpoint lstrip (s : string) : string :=
  match s with
  | EmptyString => s
  | String c1 r1 =>
      if space1 c1 then lstrip r1
      else
        match r1 with
        | EmptyString => s
        | String c2 r2 =>
            if space2 c1 c2 then lstrip r2
            else
              match r2 with
              | EmptyString => s
              | String c3 r3 => if space3 c1 c2 c3 then lstrip r3 else s
              end
        end
  end.

(** A text of white space only. *)
Definition all_space (s : string) : bool :=
  match lstrip s with
  | EmptyString => true
  | _ => false
  end.

(** [s.rstrip()]: the text up to the point from which only white space
    follows. *)
Fixpoint rstrip (s : string) : string :=
  match s with
  | EmptyString => s
  | String c s' => if all_space s then EmptyString else String c (rstrip s')
  end.

(** [s.strip()] *)
Definition strip (s : string) : string := rstrip (lstrip s).

(** Truth value of a string: the empty string is falsy. *)
Definition truthy (s : string) : bool :=
  match s with
  | EmptyString => false
  | _ => true
  end.

(** [str(n)] for an integer. *)
Definition str_of_Z (z : Z) : string := NilZero.string_of_int (Z.to_int z).

Definition str_of_nat (n : nat) : string := str_of_Z (Z.of_nat n).

End Text.

(** ** Documents and line records *)

(** A text block as [page.get_text("blocks")] returns it; only the first
    five fields are read. *)
Record Block := mkBlock {
  x0 : Q;
  y0 : Q;
  x1 : Q;
  y1 : Q;
  block_text : string
}.

Record Page := mkPage {
  text_blocks : list Block;
  rect_width : Q;
  rect_height : Q
}.

Definition Doc := list Page.

(** The dictionary appended to [page_lines]. *)
Record Line := mkLine {
  top : Q;
  bottom : Q;
  text : string;
  page_num : nat
}.

(** A whitespace entry [(diff, i-1, i)]. *)
Record Entry := mkEntry {
  diff : Q;
  start_idx : nat;
  end_idx : nat
}.

(** ** Stable sort by a rational key *)

Section SortBy.

Context {A : Type}.
Variable key : A -> Q.

Fixpoint insert_by (x : A) (l : list A) : list A :=
  match l with
  | [] => [x]
  | y :: l' =>
      if Qle_bool (key x) (key y) then x :: l else y :: insert_by x l'
  end.

(** [l.sort(key=key)]: the elements in ascending key order, elements
    with equal keys in their original order. *)
Fixpoint sort_by (l : list A) : list A :=
  match l with
  | [] => []
  | x :: l' => insert_by x (sort_by l')
  end.

End SortBy.

(** ** The extractor: [analyze_whitespace] *)

(** The inner loop over the blocks of one page. *)
Fixpoint page_lines (pn : nat) (blocks : list Block) : list Line :=
  match blocks with
  | [] => []
  | b :: rest =>
      if Text.truthy (block_text b) && Text.truthy (Text.strip (block_text b))
      then mkLine (y0 b) (y1 b) (Text.strip (block_text b)) pn
             :: page_lines pn rest
      else page_lines pn rest
  end.

(** The loop over the pages, from page number [pn] on. *)
Fixpoint extract_from (pn : nat) (pages : list Page) : list Line :=
  match pages with
  | [] => []
  | pg :: rest =>
      sort_by top (page_lines pn (text_blocks pg)) ++ extract_from (S pn) rest
  end.

Definition all_line_positions (doc : Doc) : list Line := extract_from 0 doc.

Definition dummy_line : Line := mkLine 0 0 EmptyString 0.

(** [for i in range(1, len(lines))]: the entry of index [i]. *)
Definition entry_at (lines : list Line) (i : nat) : Entry :=
  mkEntry (Qabs (top (nth i lines dummy_line)
                 - bottom (nth (i - 1) lines dummy_line))%Q)
          (i - 1) i.

Definition whitespace_of (lines : list Line) : list Entry :=
  map (entry_at lines) (seq 1 (List.length lines - 1)).

Definition analyze_whitespace (doc : Doc) : list Line * list Entry :=
  let lines := all_line_positions doc in
  (lines, whitespace_of lines).

(** ** Rounding *)

(** Python's [round(x)] with one argument: the nearest integer, a tie
    going to the even neighbour. *)
Definition py_round (x : Q) : Z :=
  let a := (2 * Qnum x + Z.pos (Qden x))%Z in
  let b := (2 * Z.pos (Qden x))%Z in
  let k := (a / b)%Z in
  if ((a mod b =? 0) && Z.odd k)%Z then (k - 1)%Z else k.

(** [round(diff * 2) / 2] *)
Definition round_half (d : Q) : Q := (inject_Z (py_round (d * 2)) / 2)%Q.

(** ** Grouping: [group_whitespace] *)

Definition Groups := list (Q * list Entry).

(** [if k not in groups: groups[k] = []] followed by
    [groups[k].append(e)]. *)
Fixpoint groups_append (k : Q) (e : Entry) (groups : Groups) : Groups :=
  match groups with
  | [] => [(k, [e])]
  | (k', items) :: rest =>
      if Qeq_bool k' k then (k', items ++ [e]) :: rest
      else (k', items) :: groups_append k e rest
  end.

Fixpoint group_loop (whitespace_diff : list Entry) (groups : Groups) : Groups :=
  match whitespace_diff with
  | [] => groups
  | e :: rest => group_loop rest (groups_append (round_half (diff e)) e groups)
  end.

Definition group_whitespace (whitespace_diff : list Entry) : Groups :=
  group_loop whitespace_diff [].

(** ** Boundary selection *)

(** The variables the selection loop updates. *)
Record SelState := mkSel {
  segment_boundaries : list nat;
  current_group_count : Z;
  current_whitespace_group : option Q
}.

Definition init_sel : SelState := mkSel [0%nat] 0 None.

(** [x in l] on a list of indices. *)
Definition index_in (x : nat) (l : list nat) : bool := existsb (Nat.eqb x) l.

(** The loop over the entries of one group; it stops at the [break]. *)
Fixpoint select_in_group (num_segments : Z) (group_items : list Entry)
         (st : SelState) : SelState :=
  match group_items with
  | [] => st
  | e :: rest =>
      if negb (index_in (start_idx e) (segment_boundaries st)) then
        let st' := mkSel (segment_boundaries st ++ [end_idx e])
                         (current_group_count st + 1)
                         (current_whitespace_group st) in
        if (current_group_count st' >=? num_segments - 1)%Z then st'
        else select_in_group num_segments rest st'
      else select_in_group num_segments rest st
  end.

(** The loop over the sorted groups; it stops at the [break]. *)
Fixpoint select_groups (num_segments : Z) (sorted_groups : Groups)
         (st : SelState) : SelState :=
  match sorted_groups with
  | [] => st
  | (whitespace_val, group_items) :: rest =>
      if (Z.of_nat (List.length (segment_boundaries st)) >=? num_segments)%Z
      then st
      else
        let st1 := match current_whitespace_group st with
                   | None => mkSel (segment_boundaries st)
                                   (current_group_count st)
                                   (Some whitespace_val)
                   | Some _ => st
                   end in
        select_groups num_segments rest
                      (select_in_group num_segments group_items st1)
  end.

(** [sorted(whitespace_groups.items(), key=lambda x: x[0])] after
    [whitespace_diff.sort(key=lambda x: x[0])] and the grouping. *)
Definition sorted_groups_of (whitespace_diff : list Entry) : Groups :=
  sort_by fst (group_whitespace (sort_by diff whitespace_diff)).

(** The boundaries when the selection loop ends. *)
Definition selected_boundaries (whitespace_diff : list Entry)
           (num_segments : Z) : list nat :=
  segment_boundaries
    (select_groups num_segments (sorted_groups_of whitespace_diff) init_sel).

(** [if segment_boundaries[-1] != len(line_positions): append]. *)
Definition ensure_final (boundaries : list nat) (total : nat) : list nat :=
  if negb (Nat.eqb (last boundaries 0%nat) total)
  then boundaries ++ [total] else boundaries.

(** The boundary list at the count check of [segment_pdf]. *)
Definition boundaries_of (doc : Doc) (num_segments : Z) : list nat :=
  let '(line_positions, whitespace_diff) := analyze_whitespace doc in
  ensure_final (selected_boundaries whitespace_diff num_segments)
               (List.length line_positions).

(** [len(segment_boundaries) != num_segments + 1] *)
Definition count_mismatch (boundaries : list nat) (num_segments : Z) : bool :=
  negb (Z.of_nat (List.length boundaries) =? num_segments + 1)%Z.

(** ** Output *)

(** A call [new_page.insert_text((x, y), s)]. *)
Record Insertion := mkInsertion {
  ins_x : Q;
  ins_y : Q;
  ins_text : string
}.

(** A page of an output document. *)
Record OutPage := mkOutPage {
  out_width : Q;
  out_height : Q;
  out_texts : list Insertion
}.

Inductive Event :=
| MakeDirs (dir : string)
| Print (msg : string)
| Save (path : string) (pdf : list OutPage).

(** [l[a:b]] for indices inside [0, len(l)] or beyond. *)
Definition slice {A : Type} (l : list A) (a b : nat) : list A :=
  firstn (b - a) (skipn a l).

(** [os.path.join(a, b)] on POSIX. *)
Definition path_join (a b : string) : string :=
  match b with
  | String "/"%char _ => b
  | _ =>
      if (String.length a =? 0)%nat then b
      else if String.eqb (substring (String.length a - 1) 1 a) "/"
           then (a ++ b)%string
           else (a ++ "/" ++ b)%string
  end.

Definition mismatch_message (achieved requested : Z) : string :=
  ("Unable to segment PDF into the desired number of segments. we have "
   ++ Text.str_of_Z achieved ++ " segments and need "
   ++ Text.str_of_Z requested)%string.

Definition saved_message (i : nat) (output_path : string) : string :=
  ("Saved segment " ++ Text.str_of_nat (i + 1) ++ " to: " ++ output_path)%string.

Definition completed_message (num_segments : Z) : string :=
  ("PDF segmentation completed with " ++ Text.str_of_Z num_segments
   ++ " segments.")%string.

(** The call [insert_text((10, line['top']), line['text'])]. *)
Definition insertion_of (line : Line) : Insertion :=
  mkInsertion 10 (top line) (text line).

(** The comprehension [page_segment_lines]. *)
Definition page_segment_lines (line_positions : list Line)
           (start_i end_i pn : nat) : list Line :=
  filter (fun line => Nat.eqb (page_num line) pn)
         (slice line_positions start_i end_i).

(** The loop over the pages of the source document that fills one
    output document. *)
Fixpoint segment_pages (line_positions : list Line) (start_i end_i : nat)
         (pn : nat) (pages : list Page) : list OutPage :=
  match pages with
  | [] => []
  | page :: rest =>
      match page_segment_lines line_positions start_i end_i pn with
      | [] => segment_pages line_positions start_i end_i (S pn) rest
      | ls =>
          mkOutPage (rect_width page) (rect_height page)
                    (map insertion_of ls)
            :: segment_pages line_positions start_i end_i (S pn) rest
      end
  end.

(** The output document of segment [i] (0-based). *)
Definition output_pdf (doc : Doc) (line_positions : list Line)
           (boundaries : list nat) (i : nat) : list OutPage :=
  segment_pages line_positions
                (nth i boundaries 0%nat) (nth (i + 1) boundaries 0%nat)
                0 doc.

(** The events of one round of the loop over the segments. *)
Definition segment_events (doc : Doc) (line_positions : list Line)
           (boundaries : list nat) (output_prefix output_dir : string)
           (i : nat) : list Event :=
  match output_pdf doc line_positions boundaries i with
  | [] => []
  | pdf =>
      let output_path :=
        path_join output_dir
                  (output_prefix ++ Text.str_of_nat (i + 1) ++ ".pdf")%string in
      [Save output_path pdf; Print (saved_message i output_path)]
  end.

(** [if output_dir is None: output_dir = dirname(abspath(pdf_path))] *)
Definition resolve_dir (pdf_dir : string) (output_dir : option string)
  : string :=
  match output_dir with
  | None => pdf_dir
  | Some d => d
  end.

(** [segment_pdf]: the events it causes, in order.  [doc] is the
    document at [pdf_path]; [pdf_dir] stands for
    [os.path.dirname(os.path.abspath(pdf_path))]. *)
Definition segment_pdf (doc : Doc) (pdf_dir : string) (num_segments : Z)
           (output_prefix : string) (output_dir : option string)
  : list Event :=
  let output_dir := resolve_dir pdf_dir output_dir in
  let '(line_positions, whitespace_diff) := analyze_whitespace doc in
  let boundaries :=
    ensure_final (selected_boundaries whitespace_diff num_segments)
                 (List.length line_positions) in
  MakeDirs output_dir ::
  if count_mismatch boundaries num_segments then
    [Print (mismatch_message (Z.of_nat (List.length boundaries) - 1)
                             num_segments)]
  else
    flat_map (segment_events doc line_positions boundaries
                             output_prefix output_dir)
             (seq 0 (Z.to_nat num_segments))
    ++ [Print (completed_message num_segments)].

(** The files written by a run. *)
Definition files_written (events : list Event) : list string :=
  flat_map (fun ev => match ev with
                      | Save path _ => [path]
                      | _ => []
                      end) events.

(** ** The command line *)

(** The entry point once [parser.parse_args()] has read [--input],
    [--segments] and [--output_dir]: the call
    [segment_pdf(args.input, args.segments, args.output_dir)].  The
    arguments are positional, so [args.output_dir] is bound to the third
    parameter, [output_prefix], and [output_dir] keeps its default
    [None].  [doc] and [pdf_dir] are the document at [args.input] and
    the directory of its absolute path. *)
Definition main (doc : Doc) (pdf_dir : string) (args_segments : Z)
           (args_output_dir : string) : list Event :=
  segment_pdf doc pdf_dir args_segments args_output_dir None.

(** ** The outside world *)

(** What a run can change: the directories and files that exist and the
    lines printed. *)
Record World := mkWorld {
  dirs : list string;
  files : list (string * list OutPage);
  stdout : list string
}.

Definition string_in (s : string) (l : list string) : bool :=
  existsb (String.eqb s) l.

(** [os.makedirs(dir, exist_ok=True)] creates the directory when it is
    absent; [save] creates or replaces a file. *)
Definition apply_event (w : World) (ev : Event) : World :=
  match ev with
  | MakeDirs d =>
      if string_in d (dirs w) then w
      else mkWorld (dirs w ++ [d]) (files w) (stdout w)
  | Print msg => mkWorld (dirs w) (files w) (stdout w ++ [msg])
  | Save path pdf =>
      mkWorld (dirs w)
              (filter (fun f => negb (String.eqb (fst f) path)) (files w)
               ++ [(path, pdf)])
              (stdout w)
  end.

Definition run (w : World) (events : list Event) : World :=
  fold_left apply_event events w.

(** ** Sample documents *)

Module Samples.

(** A block of text [s] between [t] and [b]. *)
Definition blk (t b : Q) (s : string) : Block := mkBlock 10 t 200 b s.

(** Five lines on one page; the gaps are 10, 2, 10 and 1. *)
Definition five_lines : Doc :=
  [mkPage [blk 0 10 "a"; blk 20 30 "b"; blk 32 40 "c";
           blk 50 60 "d"; blk 61 70 "e"] 595 842].

(** Six lines on one page, every gap equal to 5. *)
Definition six_even : Doc :=
  [mkPage [blk 0 10 "a"; blk 15 25 "b"; blk 30 40 "c";
           blk 45 55 "d"; blk 60 70 "e"; blk 75 85 "f"] 595 842].

(** Two lines on one page. *)
Definition two_lines : Doc :=
  [mkPage [blk 0 10 " a "; blk 15 25 "b"] 595 842].

(** A page whose only block is blank. *)
Definition blank : Doc := [mkPage [blk 0 10 "  "] 595 842].

(** U+3000, the ideographic space, and U+00A0, the no-break space. *)
Definition ideographic_space : string :=
  String "227" (String "128" (String "128" EmptyString)).

Definition no_break_space : string :=
  String "194" (String "160" EmptyString).

(** A page with two blocks of white space and a block with the letter
    [a] between an ideographic and a no-break space. *)
Definition unicode_blanks : Doc :=
  [mkPage [blk 0 10 ideographic_space; blk 15 25 no_break_space;
           blk 30 40 (ideographic_space ++ "a" ++ no_break_space)%string]
          595 842].

Definition empty_world : World := mkWorld [] [] [].

End Samples.

(** * Vocabulary of the properties *)

(** ** Subsequences *)

Inductive subseq {A : Type} : list A -> list A -> Prop :=
| subseq_nil : subseq [] []
| subseq_skip : forall x l1 l2, subseq l1 l2 -> subseq l1 (x :: l2)
| subseq_take : forall x l1 l2, subseq l1 l2 -> subseq (x :: l1) (x :: l2).

#[local] Hint Constructors subseq : core.

(** ** Order of the keys *)

Section KeyOrder.

Context {A : Type}.
Variable key : A -> Q.

Definition key_le (a b : A) : Prop := key a <= key b.
Definition key_lt (a b : A) : Prop := key a < key b.

(** Elements whose keys differ pairwise. *)
Fixpoint keys_distinct (l : list A) : Prop :=
  match l with
  | [] => True
  | x :: l' => Forall (fun y => ~ key x == key y) l' /\ keys_distinct l'
  end.

End KeyOrder.

(** ** Extraction *)

Definition empty_page : Page := mkPage [] 0 0.

(** Where a line record comes from: a block of its page with text that
    is not blank. *)
Definition from_block (pn : nat) (b : Block) (line : Line) : Prop :=
  line = mkLine (y0 b) (y1 b) (Text.strip (block_text b)) pn
  /\ Text.strip (block_text b) <> EmptyString.

(** ** Groups and selection *)

Definition flat_entries (groups : Groups) : list Entry :=
  List.concat (map snd groups).

(** Every entry sits in the group of its rounded gap. *)
Definition keyed (groups : Groups) : Prop :=
  Forall (fun g => Forall (fun e => round_half (diff e) == fst g) (snd g))
         groups.

(** The order of the rounded gaps. *)
Definition rounded_le (e1 e2 : Entry) : Prop :=
  round_half (diff e1) <= round_half (diff e2).

(** What a run of the loop adds: the end indices of a subsequence
    [picked] of the entries it walks over, none of them starting at a
    line that is already a boundary. *)
Definition extends_by (st st' : SelState) (picked : list Entry) : Prop :=
  segment_boundaries st' = segment_boundaries st ++ map end_idx picked
  /\ Forall (fun e => start_idx e <> 0%nat) picked.

(** The selection as the specification words it: walk the entries in
    the given order; as long as fewer than [num_segments] boundaries are
    held, an entry whose start is not a boundary gives its end as the
    next boundary. *)
Fixpoint greedy_walk (num_segments : Z) (entries : list Entry)
         (boundaries : list nat) : list nat :=
  match entries with
  | [] => boundaries
  | e :: rest =>
      if (Z.of_nat (List.length boundaries) >=? num_segments)%Z
      then boundaries
      else if index_in (start_idx e) boundaries
           then greedy_walk num_segments rest boundaries
           else greedy_walk num_segments rest (boundaries ++ [end_idx e])
  end.

(** Strictly increasing boundaries. *)
Definition increasing (boundaries : list nat) : Prop :=
  StronglySorted lt boundaries.

(** ** Effects *)

(** A run whose only effect is one printed line. *)
Definition only_prints (w w' : World) (msg : string) : Prop :=
  w' = mkWorld (dirs w) (files w) (stdout w ++ [msg]).

(** ** Further vocabulary *)

(** A block that becomes a line record. *)
Definition nonblank (b : Block) : bool :=
  Text.truthy (Text.strip (block_text b)).

(** The line record of a block of page [pn]. *)
Definition record_of (pn : nat) (b : Block) : Line :=
  mkLine (y0 b) (y1 b) (Text.strip (block_text b)) pn.

(** The pages of a document with their numbers. *)
Definition numbered_pages (doc : Doc) : list (nat * Page) :=
  combine (seq 0 (List.length doc)) doc.

(** The records of the blocks that are not blank, page after page, in
    the order of the blocks. *)
Definition records_of_blocks (doc : Doc) : list Line :=
  flat_map (fun np => map (record_of (fst np))
                          (filter nonblank (text_blocks (snd np))))
           (numbered_pages doc).

(** The path of the file of segment [i] (0-based). *)
Definition output_path_of (output_dir output_prefix : string) (i : nat)
  : string :=
  path_join output_dir (output_prefix ++ Text.str_of_nat (i + 1) ++ ".pdf")%string.

(** The line records of each segment, in the order of the segments. *)
Definition segment_slices (lines : list Line) (boundaries : list nat)
  : list (list Line) :=
  map (fun i => slice lines (nth i boundaries 0%nat)
                      (nth (i + 1) boundaries 0%nat))
      (seq 0 (List.length boundaries - 1)).

(** The documents saved by a run, in order. *)
Definition saved_pdfs (events : list Event) : list (list OutPage) :=
  flat_map (fun ev => match ev with
                      | Save _ pdf => [pdf]
                      | _ => []
                      end) events.

(** The entries of a list whose rounded gap is [k], in order. *)
Definition rounding_to (k : Q) (es : list Entry) : list Entry :=
  filter (fun e => Qeq_bool (round_half (diff e)) k) es.

(** The order of the gaps. *)
Definition diff_le (e1 e2 : Entry) : Prop := diff e1 <= diff e2.

(** The counter of the selection loop counts the boundaries after the
    initial 0. *)
Definition well_counted (st : SelState) : Prop :=
  current_group_count st
  = (Z.of_nat (List.length (segment_boundaries st)) - 1)%Z.

(** An entry that the loop has dealt with: it starts at a boundary, or
    its end was made a boundary. *)
Definition settled (boundaries : list nat) (e : Entry) : Prop :=
  In (start_idx e) boundaries \/ In (end_idx e) boundaries.

(** The number of boundaries of a state. *)
Definition boundary_count (st : SelState) : Z :=
  Z.of_nat (List.length (segment_boundaries st)).

(** An output page that carries text and has the size of a page of the
    source. *)
Definition page_of_source (doc : Doc) (op : OutPage) : Prop :=
  out_texts op <> []
  /\ exists page, In page doc
                  /\ out_width op = rect_width page
                  /\ out_height op = rect_height page.

Definition is_makedirs (ev : Event) : bool :=
  match ev with
  | MakeDirs _ => true
  | _ => false
  end.

(** * Properties *)

(** ** Subsequences *)


Section SubseqFacts.

Context {A : Type}.
Implicit Types l : list A.

Lemma subseq_refl l : subseq l l.
Proof. induction l; auto. Qed.

Lemma subseq_nil_l l : subseq [] l.
Proof. induction l; auto. Qed.

Lemma subseq_length l1 l2 :
  subseq l1 l2 -> (List.length l1 <= List.length l2)%nat.
Proof. induction 1; simpl; lia. Qed.

Lemma subseq_In l1 l2 x : subseq l1 l2 -> In x l1 -> In x l2.
Proof.
  induction 1; simpl; intros Hin; auto.
  destruct Hin; auto.
Qed.

Lemma subseq_Forall (P : A -> Prop) l1 l2 :
  subseq l1 l2 -> Forall P l2 -> Forall P l1.
Proof.
  intros Hs Hall. rewrite Forall_forall in *.
  intros x Hx. apply Hall. eapply subseq_In; eauto.
Qed.

Lemma subseq_app l1 l2 l3 l4 :
  subseq l1 l2 -> subseq l3 l4 -> subseq (l1 ++ l3) (l2 ++ l4).
Proof. induction 1; simpl; auto. Qed.

Lemma subseq_app_r l1 l2 l3 : subseq l1 l2 -> subseq l1 (l2 ++ l3).
Proof.
  intros H. rewrite <- (app_nil_r l1).
  apply subseq_app; [assumption | apply subseq_nil_l].
Qed.

Lemma subseq_app_l l1 l2 l3 : subseq l1 l3 -> subseq l1 (l2 ++ l3).
Proof. induction l2; simpl; auto. Qed.

Lemma subseq_StronglySorted (R : A -> A -> Prop) l1 l2 :
  subseq l1 l2 -> StronglySorted R l2 -> StronglySorted R l1.
Proof.
  induction 1; intros Hs; auto.
  - inversion Hs; subst; auto.
  - inversion Hs; subst. constructor; auto.
    eapply subseq_Forall; eauto.
Qed.

End SubseqFacts.

(** ** The stable sort *)

Section SortFacts.

Context {A : Type}.
Variable key : A -> Q.


Lemma insert_by_perm x l : Permutation (insert_by key x l) (x :: l).
Proof.
  induction l as [|y l IH]; simpl; auto.
  destruct (Qle_bool (key x) (key y)); auto.
  rewrite IH. apply perm_swap.
Qed.

Lemma sort_by_perm l : Permutation (sort_by key l) l.
Proof.
  induction l as [|x l IH]; simpl; auto.
  rewrite insert_by_perm. auto.
Qed.

Lemma sort_by_length l : List.length (sort_by key l) = List.length l.
Proof. apply Permutation_length, sort_by_perm. Qed.

Lemma insert_by_sorted x l :
  StronglySorted (key_le key) l -> StronglySorted (key_le key) (insert_by key x l).
Proof.
  induction 1 as [|y l Hs IH Hall]; simpl.
  - repeat constructor.
  - destruct (Qle_bool (key x) (key y)) eqn:E.
    + apply Qle_bool_iff in E.
      constructor; [constructor; assumption|].
      constructor; [exact E|].
      rewrite Forall_forall in *. intros z Hz.
      unfold key_le in *. eapply Qle_trans; eauto.
    + constructor; [assumption|].
      assert (Hyx : key y <= key x).
      { apply Qlt_le_weak, Qnot_le_lt. intro Hle.
        apply Qle_bool_iff in Hle. congruence. }
      eapply Permutation_Forall.
      * symmetry. apply insert_by_perm.
      * constructor; assumption.
Qed.

Lemma sort_by_sorted l : StronglySorted (key_le key) (sort_by key l).
Proof.
  induction l; simpl; [constructor | apply insert_by_sorted; assumption].
Qed.

(** Stability: the elements of any one key keep their order. *)
Lemma insert_by_stable t x l :
  filter (fun a => Qeq_bool (key a) t) (insert_by key x l)
  = filter (fun a => Qeq_bool (key a) t) (x :: l).
Proof.
  induction l as [|y l IH]; [reflexivity|].
  cbn [insert_by].
  destruct (Qle_bool (key x) (key y)) eqn:E; [reflexivity|].
  cbn [filter] in *. rewrite IH.
  destruct (Qeq_bool (key x) t) eqn:Ex, (Qeq_bool (key y) t) eqn:Ey;
    try reflexivity.
  apply Qeq_bool_iff in Ex, Ey.
  assert (Hle : key x <= key y) by (rewrite Ex, Ey; apply Qle_refl).
  apply Qle_bool_iff in Hle. congruence.
Qed.

Lemma sort_by_stable t l :
  filter (fun a => Qeq_bool (key a) t) (sort_by key l)
  = filter (fun a => Qeq_bool (key a) t) l.
Proof.
  induction l as [|x l IH]; [reflexivity|].
  cbn [sort_by]. rewrite insert_by_stable.
  cbn [filter]. rewrite IH. reflexivity.
Qed.


Lemma insert_by_distinct x l :
  keys_distinct key (x :: l) -> keys_distinct key (insert_by key x l).
Proof.
  induction l as [|y l IH]; [intros; exact H|].
  intros [Hx [Hy Hl]]. cbn [insert_by].
  destruct (Qle_bool (key x) (key y)); [cbn; auto|].
  inversion Hx as [|? ? Hxy Hxl]; subst.
  cbn [keys_distinct]. split.
  - eapply Permutation_Forall; [symmetry; apply insert_by_perm|].
    constructor; [|assumption].
    intro H. apply Hxy. symmetry. exact H.
  - apply IH. cbn. auto.
Qed.

Lemma sort_by_distinct l : keys_distinct key l -> keys_distinct key (sort_by key l).
Proof.
  induction l as [|x l IH]; [auto|].
  intros [Hx Hl]. cbn [sort_by]. apply insert_by_distinct.
  cbn. split; [|auto].
  eapply Permutation_Forall; [symmetry; apply sort_by_perm | assumption].
Qed.

Lemma sorted_distinct_strict l :
  StronglySorted (key_le key) l -> keys_distinct key l -> StronglySorted (key_lt key) l.
Proof.
  induction 1 as [|x l Hs IH Hall]; intros Hd; [constructor|].
  destruct Hd as [Hx Hl].
  constructor; [auto|].
  rewrite Forall_forall in *. intros y Hy.
  unfold key_le, key_lt in *.
  destruct (Qle_lt_or_eq _ _ (Hall y Hy)) as [Hlt | Heq]; [exact Hlt|].
  exfalso. exact (Hx y Hy Heq).
Qed.

End SortFacts.

(** ** The extractor *)


Lemma page_lines_from_block pn blocks line :
  In line (page_lines pn blocks) ->
  exists b, In b blocks /\ from_block pn b line.
Proof.
  induction blocks as [|b rest IH]; simpl; [tauto|].
  destruct (Text.truthy (block_text b)) eqn:E1; simpl.
  - destruct (Text.truthy (Text.strip (block_text b))) eqn:E2.
    + intros [Heq | Hin].
      * exists b. split; [auto|]. split; [auto|].
        intro H. rewrite H in E2. discriminate.
      * destruct (IH Hin) as [b' [? ?]]. exists b'. auto.
    + intros Hin. destruct (IH Hin) as [b' [? ?]]. exists b'. auto.
  - intros Hin. destruct (IH Hin) as [b' [? ?]]. exists b'. auto.
Qed.

Lemma page_lines_page_num pn blocks :
  Forall (fun line => page_num line = pn) (page_lines pn blocks).
Proof.
  rewrite Forall_forall. intros line Hin.
  destruct (page_lines_from_block _ _ _ Hin) as [b [_ [-> _]]]. reflexivity.
Qed.

Lemma extract_from_source pn pages line :
  In line (extract_from pn pages) ->
  exists page b,
    nth_error pages (page_num line - pn) = Some page
    /\ (pn <= page_num line)%nat
    /\ In b (text_blocks page)
    /\ from_block (page_num line) b line.
Proof.
  revert pn. induction pages as [|pg rest IH]; intros pn; simpl; [tauto|].
  rewrite in_app_iff. intros [Hin | Hin].
  - apply (Permutation_in _ (sort_by_perm top _)) in Hin.
    destruct (page_lines_from_block _ _ _ Hin) as [b [Hb Hfrom]].
    assert (Hpn : page_num line = pn) by (destruct Hfrom as [-> _]; reflexivity).
    exists pg, b. rewrite Hpn, Nat.sub_diag. simpl. auto.
  - destruct (IH _ Hin) as [page [b [Hnth [Hle [Hb Hfrom]]]]].
    exists page, b.
    replace (page_num line - pn)%nat with (S (page_num line - S pn)) by lia.
    split; [exact Hnth|]. split; [lia|]. split; assumption.
Qed.

Lemma extract_from_page_range pn pages :
  Forall (fun line => (pn <= page_num line < pn + List.length pages)%nat)
         (extract_from pn pages).
Proof.
  rewrite Forall_forall. intros line Hin.
  destruct (extract_from_source _ _ _ Hin) as [page [b [Hnth [Hle _]]]].
  split; [exact Hle|].
  assert (page_num line - pn < List.length pages)%nat.
  { apply nth_error_Some. congruence. }
  lia.
Qed.

Lemma filter_none {A : Type} (f : A -> bool) (l : list A) :
  Forall (fun x => f x = false) l -> filter f l = [].
Proof.
  induction 1 as [|x l Hx _ IH]; simpl; [reflexivity|].
  rewrite Hx. exact IH.
Qed.

Lemma filter_all {A : Type} (f : A -> bool) (l : list A) :
  Forall (fun x => f x = true) l -> filter f l = l.
Proof.
  induction 1 as [|x l Hx _ IH]; simpl; [reflexivity|].
  rewrite Hx, IH. reflexivity.
Qed.

(** The records of page [p] in the result are the sorted records of
    that page. *)
Lemma filter_extract_from pages : forall pn p,
  (pn <= p)%nat ->
  filter (fun line => Nat.eqb (page_num line) p) (extract_from pn pages)
  = sort_by top (page_lines p (text_blocks (nth (p - pn) pages empty_page))).
Proof.
  induction pages as [|pg rest IH]; intros pn p Hle; simpl.
  - destruct (p - pn)%nat; reflexivity.
  - rewrite filter_app.
    destruct (Nat.eq_dec p pn) as [-> | Hne].
    + rewrite Nat.sub_diag.
      rewrite (filter_none _ (extract_from (S pn) rest)).
      * rewrite app_nil_r. apply filter_all.
        eapply Permutation_Forall; [symmetry; apply sort_by_perm|].
        eapply Forall_impl; [|apply page_lines_page_num].
        intros line H. apply Nat.eqb_eq. exact H.
      * eapply Forall_impl; [|apply extract_from_page_range].
        intros line [H _]. apply Nat.eqb_neq. cbv beta in H. lia.
    + rewrite filter_none.
      * rewrite (IH (S pn) p) by lia.
        replace (p - pn)%nat with (S (p - S pn)) by lia. reflexivity.
      * eapply Permutation_Forall; [symmetry; apply sort_by_perm|].
        eapply Forall_impl; [|apply page_lines_page_num].
        intros line H. apply Nat.eqb_neq. cbv beta in H. lia.
Qed.

Lemma whitespace_of_length lines :
  List.length (whitespace_of lines) = (List.length lines - 1)%nat.
Proof. unfold whitespace_of. rewrite length_map, length_seq. reflexivity. Qed.

Lemma whitespace_of_nth lines i d :
  (1 <= i < List.length lines)%nat ->
  nth (i - 1) (whitespace_of lines) d = entry_at lines i.
Proof.
  intros Hi. unfold whitespace_of.
  rewrite (nth_indep _ d (entry_at lines 0)).
  - rewrite map_nth, seq_nth by lia. f_equal. lia.
  - rewrite length_map, length_seq. lia.
Qed.

(** Every entry separates two neighbours [i-1] and [i] with
    [1 <= i < len(lines)], and no index occurs twice. *)
Lemma whitespace_of_entries lines :
  Forall (fun e => end_idx e = S (start_idx e)
                   /\ (end_idx e < List.length lines)%nat)
         (whitespace_of lines).
Proof.
  unfold whitespace_of. rewrite Forall_forall. intros e Hin.
  apply in_map_iff in Hin. destruct Hin as [i [<- Hi]].
  apply in_seq in Hi. simpl. lia.
Qed.

(** ** Rounding *)

(** [round] returns an integer at distance at most one half. *)
Lemma py_round_nearest (q : Q) :
  inject_Z (py_round q) - (1 # 2) <= q /\ q <= inject_Z (py_round q) + (1 # 2).
Proof.
  destruct q as [n d]. unfold py_round. cbn [Qnum Qden].
  pose proof (Z.div_mod (2 * n + Z.pos d) (2 * Z.pos d) ltac:(lia)) as Hdm.
  pose proof (Z.mod_pos_bound (2 * n + Z.pos d) (2 * Z.pos d) ltac:(lia))
    as Hbound.
  revert Hdm Hbound.
  generalize ((2 * n + Z.pos d) / (2 * Z.pos d))%Z as k.
  generalize ((2 * n + Z.pos d) mod (2 * Z.pos d))%Z as r.
  intros r k Hdm Hbound.
  assert (Hq : forall z : Z,
             (2 * Z.pos d * z - Z.pos d <= 2 * n <= 2 * Z.pos d * z + Z.pos d)%Z ->
             inject_Z z - (1 # 2) <= n # d /\ n # d <= inject_Z z + (1 # 2)).
  { intros z Hz. unfold Qminus, Qle, Qplus, Qopp, inject_Z.
    cbn [Qnum Qden]. rewrite ?Pos2Z.inj_mul. split; lia. }
  apply Hq.
  destruct (Z.eqb_spec r 0) as [E | E]; cbn [andb].
  - destruct (Z.odd k); nia.
  - nia.
Qed.

(** On an integer, [round] returns that integer. *)
Lemma py_round_integer (q : Q) (k : Z) : q == inject_Z k -> py_round q = k.
Proof.
  destruct q as [n d]. unfold Qeq, py_round, inject_Z.
  cbn [Qnum Qden]. intros H.
  assert (Hn : n = (k * Z.pos d)%Z) by lia. subst n.
  assert (Hdiv : ((2 * (k * Z.pos d) + Z.pos d) / (2 * Z.pos d) = k)%Z).
  { symmetry. apply Z.div_unique with (r := Z.pos d); lia. }
  assert (Hmod : ((2 * (k * Z.pos d) + Z.pos d) mod (2 * Z.pos d)
                  = Z.pos d)%Z).
  { symmetry. apply Z.mod_unique with (q := k); lia. }
  rewrite Hdiv, Hmod.
  destruct (Z.eqb_spec (Z.pos d) 0) as [E | _]; [lia | reflexivity].
Qed.

Example round_half_examples :
  map round_half [13 # 10; 5 # 4; 1 # 4; 3 # 4; 7 # 1; 0]
  = [3 # 2; 2 # 2; 0 # 2; 2 # 2; 14 # 2; 0 # 2].
Proof. vm_compute. reflexivity. Qed.

Example strip_examples :
  map Text.strip ["  a b  "; ""; "   "; "x"]%string = ["a b"; ""; ""; "x"]%string.
Proof. vm_compute. reflexivity. Qed.

Example strip_unicode_examples :
  map Text.strip
      [Samples.ideographic_space; Samples.no_break_space;
       (Samples.ideographic_space ++ "a b" ++ Samples.no_break_space ++ " ")%string;
       ("x" ++ Samples.ideographic_space ++ "y")%string]
  = [""; ""; "a b"; ("x" ++ Samples.ideographic_space ++ "y")]%string.
Proof. vm_compute. reflexivity. Qed.

Lemma round_half_doubled (x : Q) :
  round_half x * 2 == inject_Z (py_round (x * 2)).
Proof. unfold round_half. field. Qed.

(** The rounded value is the rounded double, halved, and lies within a
    quarter of the gap. *)
Lemma round_half_nearest (x : Q) :
  round_half x - (1 # 4) <= x /\ x <= round_half x + (1 # 4).
Proof.
  destruct (py_round_nearest (x * 2)) as [Hlo Hhi].
  rewrite <- round_half_doubled in Hlo, Hhi.
  split.
  - apply Qmult_le_r with (z := 2); [reflexivity|].
    setoid_replace ((round_half x - (1 # 4)) * 2)
      with (round_half x * 2 - (1 # 2)) by ring.
    exact Hlo.
  - apply Qmult_le_r with (z := 2); [reflexivity|].
    setoid_replace ((round_half x + (1 # 4)) * 2)
      with (round_half x * 2 + (1 # 2)) by ring.
    exact Hhi.
Qed.

(** ** Grouping *)


Lemma groups_append_flat k e groups :
  Permutation (flat_entries (groups_append k e groups))
              (flat_entries groups ++ [e]).
Proof.
  unfold flat_entries.
  induction groups as [|[k' items] rest IH]; simpl; [reflexivity|].
  destruct (Qeq_bool k' k); simpl.
  - rewrite <- !app_assoc. apply Permutation_app_head.
    apply Permutation_app_comm.
  - rewrite IH, app_assoc. reflexivity.
Qed.

Lemma groups_append_keys k e groups :
  Forall (fun g => ~ fst g == k) groups \/
  map fst (groups_append k e groups) = map fst groups.
Proof.
  induction groups as [|[k' items] rest IH]; simpl; [left; constructor|].
  destruct (Qeq_bool k' k) eqn:E; simpl; [right; reflexivity|].
  destruct IH as [IH | IH].
  - left. constructor; [|exact IH]. simpl.
    intro H. apply Qeq_bool_iff in H. congruence.
  - right. rewrite IH. reflexivity.
Qed.

Lemma groups_append_distinct k e groups :
  keys_distinct fst groups -> keys_distinct fst (groups_append k e groups).
Proof.
  induction groups as [|[k' items] rest IH]; simpl; [auto|].
  intros [Hk Hrest].
  destruct (Qeq_bool k' k) eqn:E; simpl; [auto|].
  split; [|auto].
  assert (Hne : ~ k' == k).
  { intro H. apply Qeq_bool_iff in H. congruence. }
  clear IH Hrest E.
  induction rest as [|[k2 items2] rest IH]; simpl.
  - repeat constructor. exact Hne.
  - inversion Hk as [|? ? H2 Hk']; subst.
    destruct (Qeq_bool k2 k); constructor; auto.
Qed.

Lemma groups_append_keyed k e groups :
  round_half (diff e) == k -> keyed groups -> keyed (groups_append k e groups).
Proof.
  intros Hk. unfold keyed.
  induction groups as [|[k' items] rest IH]; simpl; intros Hg.
  - repeat constructor. exact Hk.
  - inversion Hg as [|? ? Hitems Hrest]; subst.
    destruct (Qeq_bool k' k) eqn:E.
    + constructor; [|exact Hrest]. simpl in *.
      apply Forall_app. split; [exact Hitems|].
      repeat constructor. apply Qeq_bool_iff in E.
      rewrite Hk, E. reflexivity.
    + constructor; auto.
Qed.

Lemma group_loop_flat es : forall groups,
  Permutation (flat_entries (group_loop es groups))
              (flat_entries groups ++ es).
Proof.
  induction es as [|e es IH]; intros groups; simpl.
  - rewrite app_nil_r. reflexivity.
  - rewrite IH, groups_append_flat, <- app_assoc. reflexivity.
Qed.

Lemma group_loop_distinct es : forall groups,
  keys_distinct fst groups -> keys_distinct fst (group_loop es groups).
Proof.
  induction es as [|e es IH]; intros groups H; simpl; [exact H|].
  apply IH, groups_append_distinct, H.
Qed.

Lemma group_loop_keyed es : forall groups,
  keyed groups -> keyed (group_loop es groups).
Proof.
  induction es as [|e es IH]; intros groups H; simpl; [exact H|].
  apply IH, groups_append_keyed; [reflexivity | exact H].
Qed.

Lemma flat_entries_perm g1 g2 :
  Permutation g1 g2 -> Permutation (flat_entries g1) (flat_entries g2).
Proof.
  unfold flat_entries. induction 1; simpl.
  - reflexivity.
  - apply Permutation_app_head. assumption.
  - rewrite !app_assoc. apply Permutation_app_tail, Permutation_app_comm.
  - etransitivity; eassumption.
Qed.

(** The sorted groups hold exactly the whitespace entries. *)
Lemma sorted_groups_flat ws :
  Permutation (flat_entries (sorted_groups_of ws)) ws.
Proof.
  unfold sorted_groups_of, group_whitespace.
  rewrite (flat_entries_perm _ _ (sort_by_perm fst _)).
  rewrite group_loop_flat. simpl. apply sort_by_perm.
Qed.

Lemma sorted_groups_keyed ws : keyed (sorted_groups_of ws).
Proof.
  unfold sorted_groups_of, group_whitespace, keyed.
  eapply Permutation_Forall; [symmetry; apply sort_by_perm|].
  apply group_loop_keyed. constructor.
Qed.

(** The sorted groups are in strictly ascending order of their key. *)
Lemma sorted_groups_ascending ws :
  StronglySorted (key_lt fst) (sorted_groups_of ws).
Proof.
  unfold sorted_groups_of, group_whitespace.
  apply sorted_distinct_strict; [apply sort_by_sorted|].
  apply sort_by_distinct, group_loop_distinct. exact I.
Qed.


Lemma flat_entries_ascending groups :
  StronglySorted (key_lt fst) groups -> keyed groups ->
  StronglySorted rounded_le (flat_entries groups).
Proof.
  unfold flat_entries, keyed.
  induction 1 as [|[k items] rest Hs IH Hall]; intros Hk; simpl;
    [constructor|].
  inversion Hk as [|? ? Hitems Hrest]; subst. simpl in *.
  specialize (IH Hrest).
  assert (Hlater : Forall (fun e => k < round_half (diff e))
                          (List.concat (map snd rest))).
  { clear IH Hs. rewrite Forall_forall in *.
    intros e He. apply in_concat in He. destruct He as [l [Hl He]].
    apply in_map_iff in Hl. destruct Hl as [g [<- Hg]].
    specialize (Hall g Hg). specialize (Hrest g Hg).
    rewrite Forall_forall in Hrest. rewrite (Hrest e He). exact Hall. }
  clear Hk Hall Hrest Hs.
  induction Hitems as [|e items He Hitems IHitems]; simpl; [exact IH|].
  constructor; [exact IHitems|].
  apply Forall_app. split.
  - eapply Forall_impl; [|exact Hitems].
    intros e' He'. unfold rounded_le. cbv beta in He'.
    rewrite He, He'. apply Qle_refl.
  - eapply Forall_impl; [|exact Hlater].
    intros e' He'. unfold rounded_le. cbv beta in He'.
    rewrite He. apply Qlt_le_weak, He'.
Qed.

(** ** The selection loop *)

Lemma index_in_spec x l : index_in x l = true <-> In x l.
Proof.
  unfold index_in. rewrite existsb_exists. split.
  - intros [y [Hy E]]. apply Nat.eqb_eq in E. subst. exact Hy.
  - intros H. exists x. split; [exact H | apply Nat.eqb_refl].
Qed.


Lemma select_in_group_picks n items : forall st,
  In 0%nat (segment_boundaries st) ->
  exists picked,
    subseq picked items
    /\ extends_by st (select_in_group n items st) picked.
Proof.
  unfold extends_by.
  induction items as [|e rest IH]; intros st H0; simpl.
  - exists []. simpl. rewrite app_nil_r. auto.
  - destruct (index_in (start_idx e) (segment_boundaries st)) eqn:E; simpl.
    + destruct (IH st H0) as [picked [Hsub [Hb Hne]]].
      exists picked. auto.
    + assert (Hstart : start_idx e <> 0%nat).
      { intro Hz. rewrite Hz in E.
        apply index_in_spec in H0. congruence. }
      destruct (current_group_count st + 1 >=? n - 1)%Z.
      * exists [e]. simpl. repeat split; auto.
        apply subseq_take, subseq_nil_l.
      * match goal with
        | |- context [select_in_group n rest ?s] =>
            destruct (IH s) as [picked [Hsub [Hb Hne]]]
        end.
        { simpl. apply in_or_app. auto. }
        exists (e :: picked). rewrite Hb. simpl.
        rewrite <- app_assoc. simpl. auto.
Qed.

Lemma select_groups_picks n groups : forall st,
  In 0%nat (segment_boundaries st) ->
  exists picked,
    subseq picked (flat_entries groups)
    /\ extends_by st (select_groups n groups st) picked.
Proof.
  unfold extends_by, flat_entries.
  induction groups as [|[val items] rest IH]; intros st H0; simpl.
  - exists []. simpl. rewrite app_nil_r. auto.
  - destruct (Z.of_nat (List.length (segment_boundaries st)) >=? n)%Z.
    + exists []. simpl. rewrite app_nil_r.
      repeat split; auto. apply subseq_nil_l.
    + set (st1 := match current_whitespace_group st with
                  | None => _
                  | Some _ => st
                  end).
      assert (Hb1 : segment_boundaries st1 = segment_boundaries st).
      { subst st1. destruct (current_whitespace_group st); reflexivity. }
      destruct (select_in_group_picks n items st1) as [p1 [Hs1 [He1 Hn1]]].
      { rewrite Hb1. exact H0. }
      destruct (IH (select_in_group n items st1)) as [p2 [Hs2 [He2 Hn2]]].
      { rewrite He1, Hb1. apply in_or_app. auto. }
      exists (p1 ++ p2). split; [apply subseq_app; assumption|].
      split; [|apply Forall_app; auto].
      rewrite He2, He1, Hb1, map_app, app_assoc. reflexivity.
Qed.

Lemma selected_shape ws n :
  exists picked,
    subseq picked (flat_entries (sorted_groups_of ws))
    /\ selected_boundaries ws n = 0%nat :: map end_idx picked
    /\ Forall (fun e => start_idx e <> 0%nat) picked.
Proof.
  destruct (select_groups_picks n (sorted_groups_of ws) init_sel)
    as [picked [Hsub [Hb Hne]]]; [simpl; auto|].
  exists picked. auto.
Qed.

Lemma last_cons {A : Type} (x : A) (l : list A) (d : A) :
  (l = [] /\ last (x :: l) d = x) \/ In (last (x :: l) d) l.
Proof.
  revert x. induction l as [|y l IH]; intros x; [left; auto|].
  right. change (last (x :: y :: l) d) with (last (y :: l) d).
  destruct (IH y) as [[-> ->] | Hin]; simpl; auto.
Qed.

(** The shape of the boundary list at the count check: 0, then the end
    indices picked by the loop, each of them at least 2 and below the
    number of lines, then the number of lines (unless there is no line). *)
Lemma boundaries_shape doc n :
  let total := List.length (all_line_positions doc) in
  exists picked,
    subseq picked
           (flat_entries (sorted_groups_of
                            (whitespace_of (all_line_positions doc))))
    /\ Forall (fun e => (2 <= end_idx e < total)%nat) picked
    /\ boundaries_of doc n
       = 0%nat :: map end_idx picked
         ++ (if Nat.eqb total 0 then [] else [total]).
Proof.
  intros total. subst total. unfold boundaries_of, analyze_whitespace.
  set (lines := all_line_positions doc) in *.
  destruct (selected_shape (whitespace_of lines) n)
    as [picked [Hsub [Hb Hne]]].
  assert (Hrange : Forall (fun e => (2 <= end_idx e < List.length lines)%nat)
                          picked).
  { rewrite Forall_forall in *. intros e He.
    specialize (Hne e He).
    assert (Hin : In e (whitespace_of lines)).
    { eapply Permutation_in; [apply sorted_groups_flat|].
      eapply subseq_In; eassumption. }
    pose proof (whitespace_of_entries lines) as Hall.
    rewrite Forall_forall in Hall. specialize (Hall e Hin).
    lia. }
  exists picked. split; [exact Hsub|]. split; [exact Hrange|].
  rewrite Hb. unfold ensure_final.
  destruct (last_cons 0%nat (map end_idx picked) 0%nat) as [[Hnil Hl] | Hin].
  - rewrite Hl, Hnil.
    destruct (List.length lines); reflexivity.
  - apply in_map_iff in Hin. destruct Hin as [e [He Hin]].
    rewrite Forall_forall in Hrange. specialize (Hrange e Hin).
    destruct (Nat.eqb_spec (last (0%nat :: map end_idx picked) 0%nat)
                           (List.length lines)) as [E | E]; [lia|].
    simpl. destruct (Nat.eqb_spec (List.length lines) 0); [lia | reflexivity].
Qed.

Lemma picked_length_bound doc picked :
  subseq picked
         (flat_entries (sorted_groups_of
                          (whitespace_of (all_line_positions doc)))) ->
  (List.length picked
   <= List.length (whitespace_of (all_line_positions doc)))%nat.
Proof.
  intros Hsub. apply subseq_length in Hsub.
  rewrite (Permutation_length (sorted_groups_flat _)) in Hsub. exact Hsub.
Qed.

(** ** The two outcomes of [segment_pdf] *)


Lemma segment_pdf_mismatch doc pdf_dir n prefix odir :
  count_mismatch (boundaries_of doc n) n = true ->
  segment_pdf doc pdf_dir n prefix odir
  = [MakeDirs (resolve_dir pdf_dir odir);
     Print (mismatch_message
              (Z.of_nat (List.length (boundaries_of doc n)) - 1) n)].
Proof.
  unfold segment_pdf, boundaries_of, analyze_whitespace, resolve_dir.
  intros H. rewrite H. reflexivity.
Qed.

Lemma run_mismatch w d msg :
  run w [MakeDirs d; Print msg]
  = mkWorld (if string_in d (dirs w) then dirs w else dirs w ++ [d])
            (files w)
            (stdout w ++ [msg]).
Proof.
  unfold run. simpl. destruct (string_in d (dirs w)); reflexivity.
Qed.

(** The first boundary is 0 and the last one is the number of lines,
    whatever the outcome of the count check. *)
Lemma boundaries_first_last doc n :
  nth 0 (boundaries_of doc n) 0%nat = 0%nat
  /\ last (boundaries_of doc n) 0%nat = List.length (all_line_positions doc).
Proof.
  destruct (boundaries_shape doc n) as [picked [_ [Hrange ->]]].
  split; [reflexivity|].
  destruct (Nat.eqb_spec (List.length (all_line_positions doc)) 0) as [E | E].
  - rewrite E in *. destruct picked as [|e picked]; [reflexivity|].
    inversion Hrange; subst. lia.
  - change (0%nat :: map end_idx picked ++ [List.length (all_line_positions doc)])
      with ((0%nat :: map end_idx picked)
              ++ [List.length (all_line_positions doc)]).
    apply last_last.
Qed.

(** ** Output pages *)


Lemma segment_pages_texts lines s e pages : forall pn,
  List.concat (map out_texts (segment_pages lines s e pn pages))
  = map insertion_of
        (flat_map (page_segment_lines lines s e)
                  (seq pn (List.length pages))).
Proof.
  induction pages as [|page rest IH]; intros pn; simpl; [reflexivity|].
  destruct (page_segment_lines lines s e pn) as [|l ls]; simpl.
  - apply IH.
  - rewrite IH, map_app. reflexivity.
Qed.

Lemma slice_In {A : Type} (l : list A) a b x : In x (slice l a b) -> In x l.
Proof.
  unfold slice. intros H.
  rewrite <- (firstn_skipn a l). apply in_or_app. right.
  rewrite <- (firstn_skipn (b - a) (skipn a l)). apply in_or_app. left.
  exact H.
Qed.

Lemma slice_from_zero_length {A : Type} (l : list A) b :
  (b <= List.length l)%nat -> List.length (slice l 0 b) = b.
Proof.
  intros H. unfold slice. rewrite length_firstn, length_skipn. lia.
Qed.

(** ** The order of the walk *)

(** [round] does not depend on how the rational is written. *)
Lemma py_round_compat (x y : Q) : x == y -> py_round x = py_round y.
Proof.
  destruct x as [n1 d1], y as [n2 d2]. unfold Qeq, py_round.
  cbn [Qnum Qden]. intros H.
  assert (Ha : ((2 * n1 + Z.pos d1) * Z.pos d2
                = (2 * n2 + Z.pos d2) * Z.pos d1)%Z) by lia.
  assert (Hb : (2 * Z.pos d1 * Z.pos d2 = 2 * Z.pos d2 * Z.pos d1)%Z) by lia.
  assert (Hdiv : ((2 * n1 + Z.pos d1) / (2 * Z.pos d1)
                  = (2 * n2 + Z.pos d2) / (2 * Z.pos d2))%Z).
  { rewrite <- (Z.div_mul_cancel_r _ _ (Z.pos d2)) by lia.
    rewrite <- (Z.div_mul_cancel_r (2 * n2 + Z.pos d2) _ (Z.pos d1)) by lia.
    rewrite Ha, Hb. reflexivity. }
  assert (Hmod : (((2 * n1 + Z.pos d1) mod (2 * Z.pos d1)) * Z.pos d2
                  = ((2 * n2 + Z.pos d2) mod (2 * Z.pos d2)) * Z.pos d1)%Z).
  { rewrite <- !Z.mul_mod_distr_r by lia. rewrite Ha, Hb. reflexivity. }
  rewrite Hdiv.
  destruct (Z.eqb_spec ((2 * n1 + Z.pos d1) mod (2 * Z.pos d1)) 0) as [E1 | E1];
    destruct (Z.eqb_spec ((2 * n2 + Z.pos d2) mod (2 * Z.pos d2)) 0) as [E2 | E2];
    try reflexivity; exfalso.
  - rewrite E1 in Hmod. lia.
  - rewrite E2 in Hmod. lia.
Qed.

Lemma py_round_monotone (x y : Q) :
  x <= y -> (py_round x <= py_round y)%Z.
Proof.
  intros Hxy.
  destruct (Z.le_gt_cases (py_round x) (py_round y)) as [Hle | Hgt];
    [exact Hle|].
  exfalso.
  destruct (py_round_nearest x) as [Hx _].
  destruct (py_round_nearest y) as [_ Hy].
  assert (Hk : inject_Z (py_round y) + 1 <= inject_Z (py_round x)).
  { change 1 with (inject_Z 1). rewrite <- inject_Z_plus, <- Zle_Qle. lia. }
  assert (Heq : x == y) by (apply Qle_antisym; lra).
  apply py_round_compat in Heq. lia.
Qed.

Lemma round_half_compat (x y : Q) : x == y -> round_half x = round_half y.
Proof.
  intros H. unfold round_half.
  rewrite (py_round_compat (x * 2) (y * 2)); [reflexivity|].
  rewrite H. reflexivity.
Qed.

Lemma round_half_monotone (x y : Q) : x <= y -> round_half x <= round_half y.
Proof.
  intros H. unfold round_half.
  assert (Hr : (py_round (x * 2) <= py_round (y * 2))%Z)
    by (apply py_round_monotone; lra).
  unfold Qdiv. apply Qmult_le_compat_r; [|discriminate].
  rewrite <- Zle_Qle. exact Hr.
Qed.

Lemma Qeq_bool_false_iff (x y : Q) : Qeq_bool x y = false <-> ~ x == y.
Proof.
  split.
  - intros E H. apply Qeq_bool_iff in H. congruence.
  - intros H. destruct (Qeq_bool x y) eqn:E; [|reflexivity].
    apply Qeq_bool_iff in E. contradiction.
Qed.

Lemma sort_by_sorted_id {A : Type} (key : A -> Q) (l : list A) :
  StronglySorted (key_le key) l -> sort_by key l = l.
Proof.
  induction 1 as [|x l Hs IH Hall]; [reflexivity|].
  cbn [sort_by]. rewrite IH.
  destruct l as [|y l']; [reflexivity|].
  cbn [insert_by]. inversion Hall as [|? ? Hxy _]; subst.
  apply Qle_bool_iff in Hxy. rewrite Hxy. reflexivity.
Qed.

Lemma groups_append_keys_Forall (P : Q -> Prop) k e groups :
  Forall (fun g => P (fst g)) groups -> P k ->
  Forall (fun g => P (fst g)) (groups_append k e groups).
Proof.
  intros Hall Hk.
  induction Hall as [|[k' items] rest Hp Hrest IH]; cbn [groups_append].
  - repeat constructor. exact Hk.
  - destruct (Qeq_bool k' k); constructor; auto.
Qed.

Lemma groups_append_ascending k e groups :
  StronglySorted (key_lt fst) groups ->
  Forall (fun g => fst g <= k) groups ->
  StronglySorted (key_lt fst) (groups_append k e groups).
Proof.
  induction 1 as [|[k' items] rest Hs IH Hall]; intros Hle;
    cbn [groups_append].
  - repeat constructor.
  - inversion Hle as [|? ? Hk' Hrest]; subst. cbn [fst] in Hk'.
    destruct (Qeq_bool k' k) eqn:E.
    + constructor; [exact Hs | exact Hall].
    + apply Qeq_bool_false_iff in E.
      constructor; [apply IH; exact Hrest|].
      apply groups_append_keys_Forall with (P := fun q => k' < q).
      * exact Hall.
      * destruct (Qle_lt_or_eq _ _ Hk') as [Hlt | Heq];
          [exact Hlt | contradiction].
Qed.

Lemma group_loop_ascending es : forall groups,
  StronglySorted diff_le es ->
  StronglySorted (key_lt fst) groups ->
  Forall (fun g => Forall (fun e => fst g <= round_half (diff e)) es) groups ->
  StronglySorted (key_lt fst) (group_loop es groups).
Proof.
  induction es as [|e es IH]; intros groups Hes Hs Hle; [exact Hs|].
  cbn [group_loop]. inversion Hes as [|? ? Hes' Hlater]; subst.
  apply IH; [exact Hes'| |].
  - apply groups_append_ascending; [exact Hs|].
    eapply Forall_impl; [|exact Hle].
    intros g Hg. inversion Hg; subst. assumption.
  - apply groups_append_keys_Forall
      with (P := fun q => Forall (fun e' => q <= round_half (diff e')) es).
    + eapply Forall_impl; [|exact Hle].
      intros g Hg. inversion Hg; subst. assumption.
    + eapply Forall_impl; [|exact Hlater].
      intros e' He'. apply round_half_monotone. exact He'.
Qed.

Lemma StronglySorted_weaken {A : Type} (R1 R2 : A -> A -> Prop) (l : list A) :
  (forall x y, R1 x y -> R2 x y) -> StronglySorted R1 l -> StronglySorted R2 l.
Proof.
  intros Himp. induction 1 as [|x l Hs IH Hall]; constructor; [exact IH|].
  eapply Forall_impl; [|exact Hall]. intros y. apply Himp.
Qed.

(** Appending an entry whose rounded gap is not below any key adds it
    at the end of the entries of the dictionary. *)
Lemma groups_append_flat_end k e groups :
  StronglySorted (key_lt fst) groups ->
  Forall (fun g => fst g <= k) groups ->
  flat_entries (groups_append k e groups) = flat_entries groups ++ [e].
Proof.
  unfold flat_entries.
  induction 1 as [|[k' items] rest Hs IH Hall]; intros Hle;
    cbn [groups_append]; [reflexivity|].
  inversion Hle as [|? ? Hk' Hrest]; subst. cbn [fst] in Hk'.
  destruct (Qeq_bool k' k) eqn:E; cbn [map List.concat snd].
  - apply Qeq_bool_iff in E.
    destruct rest as [|g rest]; [cbn; rewrite !app_nil_r; reflexivity|].
    exfalso. inversion Hall as [|? ? Hlt _]; subst.
    inversion Hrest as [|? ? Hg _]; subst.
    unfold key_lt in Hlt. cbn [fst] in Hlt.
    rewrite E in Hlt. apply (Qlt_not_le _ _ Hlt). exact Hg.
  - rewrite (IH Hrest), app_assoc. reflexivity.
Qed.

Lemma group_loop_flat_end es : forall groups,
  StronglySorted diff_le es ->
  StronglySorted (key_lt fst) groups ->
  Forall (fun g => Forall (fun e => fst g <= round_half (diff e)) es) groups ->
  flat_entries (group_loop es groups) = flat_entries groups ++ es.
Proof.
  induction es as [|e es IH]; intros groups Hes Hs Hle.
  - cbn [group_loop]. rewrite app_nil_r. reflexivity.
  - cbn [group_loop]. inversion Hes as [|? ? Hes' Hlater]; subst.
    assert (Hhere : Forall (fun g => fst g <= round_half (diff e)) groups).
    { eapply Forall_impl; [|exact Hle].
      intros g Hg. inversion Hg; subst. assumption. }
    rewrite IH.
    + rewrite groups_append_flat_end by assumption.
      rewrite <- app_assoc. reflexivity.
    + exact Hes'.
    + apply groups_append_ascending; assumption.
    + apply groups_append_keys_Forall
        with (P := fun q => Forall (fun e' => q <= round_half (diff e')) es).
      * eapply Forall_impl; [|exact Hle].
        intros g Hg. inversion Hg; subst. assumption.
      * eapply Forall_impl; [|exact Hlater].
        intros e' He'. apply round_half_monotone. exact He'.
Qed.

(** Read in order, the sorted groups are the entries sorted by gap. *)
Lemma sorted_groups_walk ws :
  flat_entries (sorted_groups_of ws) = sort_by diff ws.
Proof.
  assert (Hsorted : StronglySorted diff_le (sort_by diff ws))
    by apply (sort_by_sorted diff).
  assert (Hasc : StronglySorted (key_lt fst)
                   (group_whitespace (sort_by diff ws))).
  { unfold group_whitespace. apply group_loop_ascending;
      [exact Hsorted | constructor | constructor]. }
  unfold sorted_groups_of. rewrite sort_by_sorted_id.
  - unfold group_whitespace.
    rewrite group_loop_flat_end; [reflexivity | exact Hsorted | |];
      constructor.
  - eapply StronglySorted_weaken; [|exact Hasc].
    intros x y. unfold key_lt, key_le. apply Qlt_le_weak.
Qed.

(** ** The selection loop as one walk *)

Lemma greedy_walk_full n es b :
  (Z.of_nat (List.length b) >= n)%Z -> greedy_walk n es b = b.
Proof.
  intros H. destruct es as [|e es]; [reflexivity|]. cbn [greedy_walk].
  destruct (Z.geb_spec (Z.of_nat (List.length b)) n); [reflexivity | lia].
Qed.

Lemma greedy_walk_prefix n es : forall b,
  exists more, greedy_walk n es b = b ++ more.
Proof.
  induction es as [|e es IH]; intros b; cbn [greedy_walk].
  - exists []. rewrite app_nil_r. reflexivity.
  - destruct (Z.of_nat (List.length b) >=? n)%Z.
    + exists []. rewrite app_nil_r. reflexivity.
    + destruct (index_in (start_idx e) b); [apply IH|].
      destruct (IH (b ++ [end_idx e])) as [more Hmore].
      exists (end_idx e :: more). rewrite Hmore, <- app_assoc. reflexivity.
Qed.

Lemma select_in_group_walk n items : forall st tail,
  well_counted st ->
  (boundary_count st < n)%Z ->
  well_counted (select_in_group n items st)
  /\ greedy_walk n (items ++ tail) (segment_boundaries st)
     = greedy_walk n tail (segment_boundaries (select_in_group n items st)).
Proof.
  unfold well_counted, boundary_count.
  induction items as [|e rest IH]; intros st tail Hwc Hlt;
    cbn [select_in_group app]; [split; [exact Hwc | reflexivity]|].
  cbn [greedy_walk].
  destruct (Z.geb_spec (Z.of_nat (List.length (segment_boundaries st))) n)
    as [Hge | _]; [lia|].
  destruct (index_in (start_idx e) (segment_boundaries st)); cbn [negb];
    [apply IH; assumption|].
  cbn [current_group_count].
  destruct (Z.geb_spec (current_group_count st + 1) (n - 1)) as [Hfull | Hmore].
  - cbn [segment_boundaries current_group_count].
    rewrite length_app. cbn [List.length]. split; [lia|].
    rewrite !greedy_walk_full;
      [reflexivity | |]; rewrite length_app; cbn [List.length]; lia.
  - match goal with
    | |- context [select_in_group n rest ?s] =>
        destruct (IH s tail) as [Hwc' Hwalk]
    end.
    + cbn [segment_boundaries current_group_count].
      rewrite length_app. cbn [List.length]. lia.
    + cbn [segment_boundaries]. rewrite length_app. cbn [List.length]. lia.
    + split; [exact Hwc' | exact Hwalk].
Qed.

Lemma select_groups_walk n groups : forall st,
  well_counted st ->
  greedy_walk n (flat_entries groups) (segment_boundaries st)
  = segment_boundaries (select_groups n groups st).
Proof.
  unfold flat_entries.
  induction groups as [|[val items] rest IH]; intros st Hwc;
    cbn [select_groups map List.concat snd]; [reflexivity|].
  destruct (Z.geb_spec (Z.of_nat (List.length (segment_boundaries st))) n)
    as [Hge | Hlt]; [apply greedy_walk_full; lia|].
  set (st1 := match current_whitespace_group st with
              | None => _
              | Some _ => st
              end).
  assert (Hb1 : segment_boundaries st1 = segment_boundaries st)
    by (subst st1; destruct (current_whitespace_group st); reflexivity).
  assert (Hc1 : current_group_count st1 = current_group_count st)
    by (subst st1; destruct (current_whitespace_group st); reflexivity).
  assert (Hwc1 : well_counted st1)
    by (unfold well_counted; rewrite Hb1, Hc1; exact Hwc).
  destruct (select_in_group_walk n items st1 (List.concat (map snd rest)) Hwc1)
    as [Hwc2 Hwalk].
  { unfold boundary_count. rewrite Hb1. exact Hlt. }
  rewrite <- Hb1, Hwalk. apply IH. exact Hwc2.
Qed.

(** The two nested loops select what one walk over the entries, in the
    order of the sorted groups, selects. *)
Lemma selected_is_walk ws n :
  selected_boundaries ws n
  = greedy_walk n (flat_entries (sorted_groups_of ws)) [0%nat].
Proof.
  unfold selected_boundaries. symmetry.
  apply (select_groups_walk n (sorted_groups_of ws) init_sel). reflexivity.
Qed.

Lemma first_eligible (es : list Entry) :
  (exists e, In e es /\ start_idx e <> 0%nat) ->
  exists pre e1 post,
    es = pre ++ e1 :: post
    /\ Forall (fun e => start_idx e = 0%nat) pre
    /\ start_idx e1 <> 0%nat.
Proof.
  induction es as [|e es IH]; intros [x [Hin Hx]]; [destruct Hin|].
  destruct (Nat.eq_dec (start_idx e) 0) as [E | E].
  - destruct IH as [pre [e1 [post [Hes [Hpre He1]]]]].
    { destruct Hin as [-> | Hin]; [contradiction|]. exists x. auto. }
    exists (e :: pre), e1, post. rewrite Hes. auto.
  - exists [], e, es. auto.
Qed.

Lemma greedy_walk_skip_zero n pre rest :
  Forall (fun e => start_idx e = 0%nat) pre ->
  greedy_walk n (pre ++ rest) [0%nat] = greedy_walk n rest [0%nat].
Proof.
  induction 1 as [|e pre He Hpre IH]; [reflexivity|].
  cbn [app greedy_walk]. rewrite He. cbn [index_in existsb Nat.eqb orb].
  rewrite IH.
  destruct (Z.geb_spec (Z.of_nat (List.length [0%nat])) n) as [Hge | _];
    [|reflexivity].
  symmetry. apply greedy_walk_full. lia.
Qed.

Lemma StronglySorted_app_inv {A : Type} (R : A -> A -> Prop) (l1 l2 : list A) :
  StronglySorted R (l1 ++ l2) -> StronglySorted R l2.
Proof.
  induction l1 as [|x l1 IH]; [auto|].
  cbn [app]. intros H. inversion H; subst. auto.
Qed.

(** With at least two segments requested, the first boundary after 0
    comes from the first entry of the walk that does not start at line
    0. *)
Lemma first_boundary_of_walk n es :
  (2 <= n)%Z ->
  (exists e, In e es /\ start_idx e <> 0%nat) ->
  exists pre e1 post more,
    es = pre ++ e1 :: post
    /\ Forall (fun e => start_idx e = 0%nat) pre
    /\ start_idx e1 <> 0%nat
    /\ greedy_walk n es [0%nat] = 0%nat :: end_idx e1 :: more.
Proof.
  intros Hn Hex.
  destruct (first_eligible es Hex) as [pre [e1 [post [Hes [Hpre He1]]]]].
  destruct (greedy_walk_prefix n post [0%nat; end_idx e1]) as [more Hmore].
  exists pre, e1, post, more.
  split; [exact Hes|]. split; [exact Hpre|]. split; [exact He1|].
  rewrite Hes, greedy_walk_skip_zero by exact Hpre.
  cbn [greedy_walk List.length].
  destruct (Z.geb_spec (Z.of_nat 1) n) as [Hge | _]; [lia|].
  assert (E : index_in (start_idx e1) [0%nat] = false).
  { destruct (index_in (start_idx e1) [0%nat]) eqn:E; [|reflexivity].
    apply index_in_spec in E. destruct E as [E | []].
    exfalso. apply He1. symmetry. exact E. }
  rewrite E. exact Hmore.
Qed.

(** * The properties of the specification *)

Import Samples.

(** ** The extractor *)

(** C5: the extractor returns one whitespace entry per pair of
    neighbouring line records: [len(line_records) - 1] entries when there
    are at least two records, none when there are fewer; the entry
    between records [i-1] and [i] holds the absolute distance between the
    top of record [i] and the bottom of record [i-1], then [i-1] and
    [i]. *)
Theorem whitespace_entries_count (doc : Doc) :
  let lines := fst (analyze_whitespace doc) in
  let ws := snd (analyze_whitespace doc) in
  ((2 <= List.length lines)%nat ->
   List.length ws = (List.length lines - 1)%nat)
  /\ ((List.length lines < 2)%nat -> List.length ws = 0%nat)
  /\ (forall i, (1 <= i < List.length lines)%nat ->
        nth_error ws (i - 1)
        = Some (mkEntry (Qabs (top (nth i lines dummy_line)
                               - bottom (nth (i - 1) lines dummy_line)))
                        (i - 1) i)).
Proof.
  unfold analyze_whitespace. cbn [fst snd].
  set (lines := all_line_positions doc).
  pose proof (whitespace_of_length lines) as Hlen.
  split; [intros _; exact Hlen|].
  split; [intros H; rewrite Hlen; lia|].
  intros i Hi.
  rewrite (nth_error_nth' _ (entry_at lines 0)) by lia.
  rewrite whitespace_of_nth by exact Hi. reflexivity.
Qed.

Lemma whitespace_entries_count_witness :
  List.length (snd (analyze_whitespace two_lines)) = 1%nat
  /\ nth_error (snd (analyze_whitespace two_lines)) 0
     = Some (mkEntry (Qabs (15 - 10)) 0 1).
Proof.
  destruct (whitespace_entries_count two_lines) as [Hmany [_ Hnth]].
  split.
  - apply Hmany. vm_compute. lia.
  - apply (Hnth 1%nat). vm_compute. lia.
Defined.

(** C6: within every page the line records that the extractor returns
    are in ascending order of [top].  The records of page [p] are the
    records of that page sorted by a stable sort: the same records,
    those with equal [top] in the order of their blocks.  This holds for
    every document, with or without an extractable line. *)
Theorem lines_sorted_within_page (doc : Doc) (p : nat) :
  let records :=
    filter (fun line => Nat.eqb (page_num line) p) (all_line_positions doc) in
  let collected := page_lines p (text_blocks (nth p doc empty_page)) in
  records = sort_by top collected
  /\ StronglySorted (fun a b => top a <= top b) records
  /\ Permutation records collected
  /\ forall t, filter (fun line => Qeq_bool (top line) t) records
               = filter (fun line => Qeq_bool (top line) t) collected.
Proof.
  intros records collected.
  assert (E : records = sort_by top collected).
  { subst records collected. unfold all_line_positions.
    rewrite filter_extract_from by lia.
    rewrite Nat.sub_0_r. reflexivity. }
  rewrite E. split; [reflexivity|].
  split; [apply (sort_by_sorted top)|].
  split; [apply sort_by_perm|].
  intros t. apply sort_by_stable.
Qed.

(** ** Rounding and grouping *)

(** C8: rounding a gap to the nearest 0.5 is idempotent: rounding a
    rounded value returns that value. *)
Theorem rounding_idempotent (x : Q) :
  round_half (round_half x) = round_half x
  /\ round_half (round_half x) == round_half x.
Proof.
  assert (E : round_half (round_half x) = round_half x).
  { unfold round_half at 1.
    rewrite (py_round_integer (round_half x * 2) (py_round (x * 2))).
    - reflexivity.
    - apply round_half_doubled. }
  rewrite E. split; reflexivity.
Qed.

(** C4: the selection loop walks the groups in strictly ascending order
    of their rounded gap and the order is not reversed: every entry lies
    in the group of its rounded gap, and read group after group the
    entries are all the whitespace entries in ascending order of gap
    (entries of equal gap in ascending order of index).  The boundaries
    are taken on that walk, smallest rounded gaps first: the two loops
    select exactly what one walk over these entries selects, taking the
    end of each entry whose start is not yet a boundary until
    [num_segments] boundaries are held.  So the boundaries appended come
    from a subsequence of the walk with rounded gaps that never
    decrease, and with at least two segments requested the first of them
    comes from an entry whose rounded gap is the smallest among the
    entries that do not start at line 0. *)
Theorem groups_visited_ascending (whitespace_diff : list Entry)
        (num_segments : Z) :
  let groups := sorted_groups_of whitespace_diff in
  StronglySorted (fun g1 g2 => fst g1 < fst g2) groups
  /\ Forall (fun g => Forall (fun e => round_half (diff e) == fst g) (snd g))
            groups
  /\ (exists picked,
         subseq picked (flat_entries groups)
         /\ selected_boundaries whitespace_diff num_segments
            = 0%nat :: map end_idx picked
         /\ StronglySorted
              (fun e1 e2 => round_half (diff e1) <= round_half (diff e2))
              picked)
  /\ flat_entries groups = sort_by diff whitespace_diff
  /\ selected_boundaries whitespace_diff num_segments
     = greedy_walk num_segments (flat_entries groups) [0%nat]
  /\ ((2 <= num_segments)%Z ->
      (exists e, In e whitespace_diff /\ start_idx e <> 0%nat) ->
      exists first more,
        In first whitespace_diff
        /\ start_idx first <> 0%nat
        /\ selected_boundaries whitespace_diff num_segments
           = 0%nat :: end_idx first :: more
        /\ forall e, In e whitespace_diff -> start_idx e <> 0%nat ->
                     round_half (diff first) <= round_half (diff e)).
Proof.
  intros groups.
  pose proof (sorted_groups_ascending whitespace_diff) as Hasc.
  pose proof (sorted_groups_keyed whitespace_diff) as Hkeyed.
  pose proof (flat_entries_ascending _ Hasc Hkeyed) as Hflat.
  pose proof (sorted_groups_flat whitespace_diff) as Hperm.
  fold groups in Hasc, Hkeyed, Hflat, Hperm.
  split; [exact Hasc|]. split; [exact Hkeyed|].
  split.
  { destruct (selected_shape whitespace_diff num_segments)
      as [picked [Hsub [Hb _]]].
    exists picked. split; [exact Hsub|]. split; [exact Hb|].
    eapply subseq_StronglySorted; [exact Hsub | exact Hflat]. }
  split; [apply sorted_groups_walk|].
  split; [apply selected_is_walk|].
  intros Hn [e [He Hstart]].
  destruct (first_boundary_of_walk num_segments (flat_entries groups) Hn)
    as [pre [e1 [post [more [Hsplit [Hpre [He1 Hwalk]]]]]]].
  { exists e. split; [|exact Hstart].
    eapply Permutation_in; [symmetry; exact Hperm | exact He]. }
  exists e1, more.
  split.
  { eapply Permutation_in; [exact Hperm|].
    rewrite Hsplit. apply in_or_app. right. left. reflexivity. }
  split; [exact He1|].
  split; [rewrite selected_is_walk; exact Hwalk|].
  intros e' He' Hstart'.
  apply (Permutation_in _ (Permutation_sym Hperm)) in He'.
  rewrite Hsplit in He', Hflat.
  apply StronglySorted_app_inv in Hflat.
  inversion Hflat as [|? ? _ Hlater]; subst.
  apply in_app_or in He'. destruct He' as [Hin | [<- | Hin]].
  - rewrite Forall_forall in Hpre. specialize (Hpre e' Hin). contradiction.
  - apply Qle_refl.
  - rewrite Forall_forall in Hlater. exact (Hlater e' Hin).
Qed.

Lemma groups_visited_ascending_witness :
  exists first more,
    In first (snd (analyze_whitespace five_lines))
    /\ start_idx first <> 0%nat
    /\ selected_boundaries (snd (analyze_whitespace five_lines)) 3
       = 0%nat :: end_idx first :: more
    /\ forall e, In e (snd (analyze_whitespace five_lines)) ->
                 start_idx e <> 0%nat ->
                 round_half (diff first) <= round_half (diff e).
Proof.
  destruct (groups_visited_ascending (snd (analyze_whitespace five_lines)) 3)
    as [_ [_ [_ [_ [_ Hfirst]]]]].
  apply Hfirst.
  - lia.
  - exists (mkEntry 2 1 2). split.
    + vm_compute. right. left. reflexivity.
    + cbn. lia.
Defined.

Example five_lines_walk :
  map end_idx (sort_by diff (snd (analyze_whitespace five_lines)))
  = [4; 2; 1; 3]%nat
  /\ selected_boundaries (snd (analyze_whitespace five_lines)) 3
     = [0; 4; 2]%nat.
Proof. split; vm_compute; reflexivity. Qed.

(** ** The boundary list *)


(** C1: on the five-line page with gaps 10, 2, 10 and 1, asked for three
    segments, the count check passes, the list has four elements, starts
    at 0 and ends at the number of lines, but it is [0; 4; 2; 5]: the
    boundaries are appended in the order of the gaps and are not
    increasing.  The second segment is empty and the third repeats two
    lines of the first. *)
Theorem boundaries_out_of_order :
  boundaries_of five_lines 3 = [0; 4; 2; 5]%nat
  /\ count_mismatch (boundaries_of five_lines 3) 3 = false
  /\ List.length (all_line_positions five_lines) = 5%nat
  /\ ~ increasing (boundaries_of five_lines 3)
  /\ files_written (segment_pdf five_lines "/doc" 3 "segment_" (Some "out"%string))
     = ["out/segment_1.pdf"; "out/segment_3.pdf"]%string.
Proof.
  assert (E : boundaries_of five_lines 3 = [0; 4; 2; 5]%nat)
    by (vm_compute; reflexivity).
  rewrite E.
  split; [reflexivity|].
  split; [vm_compute; reflexivity|].
  split; [vm_compute; reflexivity|].
  split; [|vm_compute; reflexivity].
  unfold increasing. intro H.
  inversion H as [|? ? H1 _]; subst.
  inversion H1 as [|? ? _ H2]; subst.
  inversion H2 as [|? ? Hlt _]; subst. lia.
Qed.

(** ** The mismatch path *)


(** C2, as stated, fails: asked for three segments of a two-line
    document, the run ends on the mismatch path and prints its message,
    but it has also created the output directory. *)
Lemma mismatch_creates_directory :
  count_mismatch (boundaries_of two_lines 3) 3 = true
  /\ ~ only_prints empty_world
         (run empty_world
              (segment_pdf two_lines "/doc" 3 "segment_" (Some "out"%string)))
         (mismatch_message 1 3)
  /\ dirs (run empty_world
               (segment_pdf two_lines "/doc" 3 "segment_" (Some "out"%string)))
     = ["out"]%string.
Proof.
  split; [vm_compute; reflexivity|].
  split; [|vm_compute; reflexivity].
  unfold only_prints. intro H.
  apply (f_equal dirs) in H. vm_compute in H. discriminate H.
Qed.

(** C2, amended: when the length of the boundary list differs from
    [num_segments + 1], [segment_pdf] makes sure the output directory
    exists (creating it when absent), prints the mismatch message with
    the achieved and the requested number of segments, and returns:
    no file is written and nothing else is printed. *)
Theorem mismatch_effects (doc : Doc) (pdf_dir : string) (num_segments : Z)
        (output_prefix : string) (output_dir : option string) (w : World) :
  count_mismatch (boundaries_of doc num_segments) num_segments = true ->
  let events :=
    segment_pdf doc pdf_dir num_segments output_prefix output_dir in
  let dir := resolve_dir pdf_dir output_dir in
  let msg :=
    mismatch_message
      (Z.of_nat (List.length (boundaries_of doc num_segments)) - 1)
      num_segments in
  events = [MakeDirs dir; Print msg]
  /\ files_written events = []
  /\ files (run w events) = files w
  /\ stdout (run w events) = stdout w ++ [msg]
  /\ dirs (run w events)
     = if string_in dir (dirs w) then dirs w else dirs w ++ [dir].
Proof.
  intros Hmis events dir msg.
  assert (E : events = [MakeDirs dir; Print msg])
    by (apply segment_pdf_mismatch; exact Hmis).
  rewrite E, run_mismatch. cbn [dirs files stdout].
  repeat split; reflexivity.
Qed.

Lemma mismatch_effects_witness :
  segment_pdf two_lines "/doc" 3 "segment_" None
  = [MakeDirs "/doc"; Print (mismatch_message 1 3)]
  /\ files_written (segment_pdf two_lines "/doc" 3 "segment_" None) = [].
Proof.
  destruct (mismatch_effects two_lines "/doc" 3 "segment_" None empty_world)
    as [Hev [Hfiles _]].
  - vm_compute. reflexivity.
  - split; [exact Hev | exact Hfiles].
Defined.

(** C3, as stated, fails: six lines with equal gaps form one whitespace
    group, three segments are more than one group plus one, and yet the
    run succeeds and writes three files. *)
Lemma one_group_three_segments :
  List.length (sorted_groups_of (snd (analyze_whitespace six_even))) = 1%nat
  /\ count_mismatch (boundaries_of six_even 3) 3 = false
  /\ boundaries_of six_even 3 = [0; 2; 4; 6]%nat
  /\ files_written (segment_pdf six_even "/doc" 3 "segment_" (Some "out"%string))
     = ["out/segment_1.pdf"; "out/segment_2.pdf"; "out/segment_3.pdf"]%string.
Proof. repeat split; vm_compute; reflexivity. Qed.

(** C3, amended: when the requested number of segments exceeds the
    number of whitespace entries plus one, the run ends with the
    mismatch message and writes no file. *)
Theorem too_many_segments (doc : Doc) (pdf_dir : string) (num_segments : Z)
        (output_prefix : string) (output_dir : option string) :
  (Z.of_nat (List.length (snd (analyze_whitespace doc))) + 1 < num_segments)%Z ->
  let events :=
    segment_pdf doc pdf_dir num_segments output_prefix output_dir in
  count_mismatch (boundaries_of doc num_segments) num_segments = true
  /\ events
     = [MakeDirs (resolve_dir pdf_dir output_dir);
        Print (mismatch_message
                 (Z.of_nat (List.length (boundaries_of doc num_segments)) - 1)
                 num_segments)]
  /\ files_written events = [].
Proof.
  intros Hn events. unfold analyze_whitespace in Hn. cbn [snd] in Hn.
  assert (Hmis : count_mismatch (boundaries_of doc num_segments) num_segments
                 = true).
  { destruct (boundaries_shape doc num_segments)
      as [picked [Hsub [_ Hb]]].
    apply picked_length_bound in Hsub.
    unfold count_mismatch. rewrite Hb.
    apply negb_true_iff, Z.eqb_neq.
    cbn [List.length]. rewrite length_app, length_map.
    destruct (Nat.eqb (List.length (all_line_positions doc)) 0);
      cbn [List.length]; lia. }
  split; [exact Hmis|].
  subst events. rewrite (segment_pdf_mismatch _ _ _ _ _ Hmis).
  split; reflexivity.
Qed.

Lemma too_many_segments_witness :
  count_mismatch (boundaries_of two_lines 3) 3 = true
  /\ files_written (segment_pdf two_lines "/doc" 3 "segment_" (Some "out"%string))
     = [].
Proof.
  destruct (too_many_segments two_lines "/doc" 3 "segment_" (Some "out"%string))
    as [Hmis [_ Hfiles]].
  - vm_compute. reflexivity.
  - split; [exact Hmis | exact Hfiles].
Defined.

(** C10: when no line record is extracted and at least one segment is
    requested, the boundary list stays [0], the count check fails, the
    mismatch message (zero segments achieved) is printed and no file is
    written. *)
Theorem no_lines_mismatch (doc : Doc) (pdf_dir : string) (num_segments : Z)
        (output_prefix : string) (output_dir : option string) :
  all_line_positions doc = [] ->
  (1 <= num_segments)%Z ->
  let events :=
    segment_pdf doc pdf_dir num_segments output_prefix output_dir in
  boundaries_of doc num_segments = [0%nat]
  /\ count_mismatch (boundaries_of doc num_segments) num_segments = true
  /\ events = [MakeDirs (resolve_dir pdf_dir output_dir);
               Print (mismatch_message 0 num_segments)]
  /\ files_written events = [].
Proof.
  intros Hnone Hn events.
  assert (Hb : boundaries_of doc num_segments = [0%nat]).
  { unfold boundaries_of, analyze_whitespace. rewrite Hnone. reflexivity. }
  assert (Hmis : count_mismatch (boundaries_of doc num_segments) num_segments
                 = true).
  { rewrite Hb. unfold count_mismatch. cbn [List.length].
    apply negb_true_iff, Z.eqb_neq. lia. }
  split; [exact Hb|]. split; [exact Hmis|].
  subst events. rewrite (segment_pdf_mismatch _ _ _ _ _ Hmis), Hb.
  split; reflexivity.
Qed.

Lemma no_lines_mismatch_witness :
  segment_pdf blank "/doc" 1 "segment_" None
  = [MakeDirs "/doc"; Print (mismatch_message 0 1)].
Proof.
  destruct (no_lines_mismatch blank "/doc" 1 "segment_" None)
    as [_ [_ [Hev _]]].
  - vm_compute. reflexivity.
  - lia.
  - exact Hev.
Defined.

(** ** The success path *)

(** C9: when the count check passes for at least two segments, 1 is not
    a boundary: the entry between records 0 and 1 starts at the boundary
    0 and is always skipped.  The first segment therefore holds at least
    two line records. *)
Theorem first_segment_two_lines (doc : Doc) (num_segments : Z) :
  (2 <= num_segments)%Z ->
  count_mismatch (boundaries_of doc num_segments) num_segments = false ->
  let boundaries := boundaries_of doc num_segments in
  ~ In 1%nat boundaries
  /\ (2 <= List.length (slice (all_line_positions doc)
                              (nth 0 boundaries 0%nat)
                              (nth 1 boundaries 0%nat)))%nat.
Proof.
  intros Hn Hok boundaries. subst boundaries.
  destruct (boundaries_shape doc num_segments)
    as [picked [_ [Hrange Hb]]].
  rewrite Hb in *. clear Hb.
  unfold count_mismatch in Hok.
  apply negb_false_iff, Z.eqb_eq in Hok.
  cbn [List.length] in Hok. rewrite length_app, length_map in Hok.
  destruct picked as [|e picked].
  { destruct (Nat.eqb (List.length (all_line_positions doc)) 0);
      cbn [List.length] in Hok; lia. }
  inversion Hrange as [|? ? He Hrest]; subst.
  split.
  - cbn [map app]. intros [H | [H | H]]; try lia.
    apply in_app_or in H. destruct H as [H | H].
    + apply in_map_iff in H. destruct H as [e' [He' Hin]].
      rewrite Forall_forall in Hrest. specialize (Hrest e' Hin). lia.
    + destruct (Nat.eqb_spec (List.length (all_line_positions doc)) 0);
        [lia|].
      destruct H as [H | []]. lia.
  - cbn [map app nth]. rewrite slice_from_zero_length; lia.
Qed.

Lemma first_segment_two_lines_witness :
  ~ In 1%nat (boundaries_of six_even 3)
  /\ (2 <= List.length (slice (all_line_positions six_even)
                              (nth 0 (boundaries_of six_even 3) 0%nat)
                              (nth 1 (boundaries_of six_even 3) 0%nat)))%nat.
Proof.
  apply (first_segment_two_lines six_even 3).
  - lia.
  - vm_compute. reflexivity.
Defined.

(** C7: the strings placed on the pages of an output segment are those
    of the line records selected into it, each at x = 10 and at the y of
    the record's top; the text of a record is the stripped text of the
    block it was read from, and its top is the top of that block. *)
Theorem placed_text_is_line_text (doc : Doc) (num_segments : Z) (i : nat) :
  let lines := all_line_positions doc in
  let boundaries := boundaries_of doc num_segments in
  let selected :=
    slice lines (nth i boundaries 0%nat) (nth (i + 1) boundaries 0%nat) in
  let placed :=
    List.concat (map out_texts (output_pdf doc lines boundaries i)) in
  (forall ins,
      In ins placed <->
      exists line,
        In line selected
        /\ ins = mkInsertion 10 (top line) (text line))
  /\ (forall line,
         In line selected ->
         exists page block,
           nth_error doc (page_num line) = Some page
           /\ In block (text_blocks page)
           /\ text line = Text.strip (block_text block)
           /\ top line = y0 block).
Proof.
  intros lines boundaries selected placed.
  assert (Hsrc : forall line, In line selected ->
            exists page block,
              nth_error doc (page_num line) = Some page
              /\ In block (text_blocks page)
              /\ text line = Text.strip (block_text block)
              /\ top line = y0 block).
  { intros line Hin. apply slice_In in Hin.
    destruct (extract_from_source _ _ _ Hin)
      as [page [b [Hnth [_ [Hb [Hline _]]]]]].
    rewrite Nat.sub_0_r in Hnth.
    exists page, b. rewrite Hline at 2 3. auto. }
  split; [|exact Hsrc].
  intros ins. subst placed. unfold output_pdf.
  rewrite segment_pages_texts, in_map_iff.
  fold selected. split.
  - intros [line [<- Hin]].
    apply in_flat_map in Hin. destruct Hin as [pn [_ Hin]].
    unfold page_segment_lines in Hin. apply filter_In in Hin.
    exists line. split; [apply Hin | reflexivity].
  - intros [line [Hin ->]]. exists line. split; [reflexivity|].
    apply in_flat_map. exists (page_num line). split.
    + apply in_seq.
      destruct (Hsrc line Hin) as [page [_ [Hnth _]]].
      assert (page_num line < List.length doc)%nat
        by (apply nth_error_Some; congruence).
      lia.
    + unfold page_segment_lines. apply filter_In.
      split; [exact Hin | apply Nat.eqb_refl].
Qed.

Lemma placed_text_is_line_text_witness :
  In (mkInsertion 10 0 "a")
     (List.concat
        (map out_texts
             (output_pdf two_lines (all_line_positions two_lines)
                         (boundaries_of two_lines 1) 0))).
Proof.
  apply (proj1 (placed_text_is_line_text two_lines 1 0)).
  exists (mkLine 0 10 "a" 0). split.
  - vm_compute. left. reflexivity.
  - reflexivity.
Defined.

(** * Further properties of the code *)

(** ** Stripping *)

Lemma lstrip_unfold (s : string) :
  Text.lstrip s = match Text.space_prefix s with
                  | Some r => Text.lstrip r
                  | None => s
                  end.
Proof.
  destruct s as [|c1 r1]; [reflexivity|].
  cbn [Text.lstrip Text.space_prefix].
  destruct (Text.space1 c1); [reflexivity|].
  destruct r1 as [|c2 r2]; [reflexivity|].
  destruct (Text.space2 c1 c2); [reflexivity|].
  destruct r2 as [|c3 r3]; [reflexivity|].
  destruct (Text.space3 c1 c2 c3); reflexivity.
Qed.

Lemma space_prefix_length (s r : string) :
  Text.space_prefix s = Some r -> (String.length r < String.length s)%nat.
Proof.
  destruct s as [|c1 r1]; [discriminate|]. cbn [Text.space_prefix].
  destruct (Text.space1 c1).
  { intros H. injection H as <-. cbn. lia. }
  destruct r1 as [|c2 r2]; [discriminate|].
  destruct (Text.space2 c1 c2).
  { intros H. injection H as <-. cbn. lia. }
  destruct r2 as [|c3 r3]; [discriminate|].
  destruct (Text.space3 c1 c2 c3); [|discriminate].
  intros H. injection H as <-. cbn. lia.
Qed.

Lemma space_prefix_app (s r v : string) :
  Text.space_prefix s = Some r ->
  Text.space_prefix (s ++ v) = Some (r ++ v)%string.
Proof.
  destruct s as [|c1 r1]; [discriminate|].
  cbn [Text.space_prefix append].
  destruct (Text.space1 c1).
  { intros H. injection H as <-. reflexivity. }
  destruct r1 as [|c2 r2]; [discriminate|]. cbn [append].
  destruct (Text.space2 c1 c2).
  { intros H. injection H as <-. reflexivity. }
  destruct r2 as [|c3 r3]; [discriminate|]. cbn [append].
  destruct (Text.space3 c1 c2 c3); [|discriminate].
  intros H. injection H as <-. reflexivity.
Qed.

(** What [lstrip] returns does not start with white space. *)
Lemma lstrip_clean_start (s : string) :
  Text.space_prefix (Text.lstrip s) = None.
Proof.
  remember (String.length s) as n eqn:Hn.
  revert s Hn. induction n as [n IH] using lt_wf_ind. intros s Hn.
  rewrite lstrip_unfold.
  destruct (Text.space_prefix s) as [r|] eqn:E; [|exact E].
  apply (IH (String.length r)); [|reflexivity].
  subst n. apply space_prefix_length, E.
Qed.

Lemma lstrip_fixed (s : string) :
  Text.space_prefix s = None -> Text.lstrip s = s.
Proof. intros H. rewrite lstrip_unfold, H. reflexivity. Qed.

Lemma lstrip_app_all_space (p v : string) :
  Text.lstrip p = EmptyString -> Text.lstrip (p ++ v) = Text.lstrip v.
Proof.
  remember (String.length p) as n eqn:Hn.
  revert p Hn. induction n as [n IH] using lt_wf_ind. intros p Hn Hp.
  rewrite lstrip_unfold in Hp.
  destruct (Text.space_prefix p) as [r|] eqn:E.
  - rewrite (lstrip_unfold (p ++ v)), (space_prefix_app _ _ v E).
    apply (IH (String.length r)); [|reflexivity | exact Hp].
    subst n. apply space_prefix_length, E.
  - subst p. reflexivity.
Qed.

Lemma rstrip_unfold (c : ascii) (s : string) :
  Text.rstrip (String c s)
  = if Text.all_space (String c s) then EmptyString
    else String c (Text.rstrip s).
Proof. reflexivity. Qed.

(** [rstrip] cuts off a suffix that is white space only. *)
Lemma rstrip_split (s : string) :
  exists v, s = (Text.rstrip s ++ v)%string /\ Text.lstrip v = EmptyString.
Proof.
  induction s as [|c s IH]; [exists EmptyString; split; reflexivity|].
  rewrite rstrip_unfold.
  destruct (Text.all_space (String c s)) eqn:E.
  - exists (String c s). split; [reflexivity|].
    unfold Text.all_space in E.
    destruct (Text.lstrip (String c s)); [reflexivity | discriminate].
  - destruct IH as [v [Hs Hv]]. exists v. split; [|exact Hv].
    cbn [append]. rewrite <- Hs. reflexivity.
Qed.

Lemma rstrip_idempotent (s : string) :
  Text.rstrip (Text.rstrip s) = Text.rstrip s.
Proof.
  induction s as [|c s IH]; [reflexivity|].
  rewrite rstrip_unfold.
  destruct (Text.all_space (String c s)) eqn:E; [reflexivity|].
  rewrite rstrip_unfold, IH.
  destruct (Text.all_space (String c (Text.rstrip s))) eqn:E'; [|reflexivity].
  exfalso.
  destruct (rstrip_split s) as [v [Hs Hv]].
  unfold Text.all_space in E, E'.
  destruct (Text.lstrip (String c (Text.rstrip s))) eqn:El; [|discriminate].
  apply (lstrip_app_all_space _ v) in El. cbn [append] in El.
  rewrite <- Hs, Hv in El. rewrite El in E. discriminate.
Qed.

Lemma rstrip_clean_start (s : string) :
  Text.space_prefix s = None -> Text.space_prefix (Text.rstrip s) = None.
Proof.
  intros H. destruct (Text.space_prefix (Text.rstrip s)) as [r|] eqn:E;
    [|reflexivity].
  destruct (rstrip_split s) as [v [Hs _]].
  apply (space_prefix_app _ _ v) in E. rewrite <- Hs, H in E. discriminate.
Qed.

Lemma strip_clean (s : string) :
  Text.lstrip (Text.strip s) = Text.strip s
  /\ Text.rstrip (Text.strip s) = Text.strip s.
Proof.
  unfold Text.strip. split; [|apply rstrip_idempotent].
  apply lstrip_fixed, rstrip_clean_start, lstrip_clean_start.
Qed.

Lemma strip_idempotent (s : string) : Text.strip (Text.strip s) = Text.strip s.
Proof.
  destruct (strip_clean s) as [Hl Hr].
  unfold Text.strip at 1. rewrite Hl. exact Hr.
Qed.

(** No white space character is left at the end: what [rstrip] returns
    has no non-empty suffix of white space only. *)
Lemma rstrip_clean_end (s u v : string) :
  Text.rstrip s = (u ++ v)%string -> Text.all_space v = true -> v = EmptyString.
Proof.
  revert u. induction s as [|c s IH]; intros u.
  - cbn [Text.rstrip]. intros H _. destruct u; [symmetry; exact H | discriminate].
  - rewrite rstrip_unfold.
    destruct (Text.all_space (String c s)) eqn:E.
    + intros H _. destruct u; [symmetry; exact H | discriminate].
    + intros H Hv. destruct u as [|c' u].
      * cbn [append] in H. subst v. exfalso.
        destruct (rstrip_split s) as [w [Hs Hw]].
        unfold Text.all_space in E, Hv.
        destruct (Text.lstrip (String c (Text.rstrip s))) eqn:El; [|discriminate].
        apply (lstrip_app_all_space _ w) in El. cbn [append] in El.
        rewrite <- Hs, Hw in El. rewrite El in E. discriminate.
      * cbn [append] in H. injection H as _ H. exact (IH u H Hv).
Qed.

Lemma truthy_strip (s : string) :
  Text.truthy s && Text.truthy (Text.strip s) = Text.truthy (Text.strip s).
Proof. destruct s; reflexivity. Qed.

(** ** The extractor *)

Lemma page_lines_length pn blocks :
  List.length (page_lines pn blocks) = List.length (filter nonblank blocks).
Proof.
  induction blocks as [|b rest IH]; [reflexivity|].
  cbn [page_lines filter]. rewrite truthy_strip. unfold nonblank at 1.
  destruct (Text.truthy (Text.strip (block_text b))); cbn [List.length];
    rewrite IH; reflexivity.
Qed.

Lemma extract_from_length pages : forall pn,
  List.length (extract_from pn pages)
  = List.length (filter nonblank (flat_map text_blocks pages)).
Proof.
  induction pages as [|pg rest IH]; intros pn; [reflexivity|].
  cbn [extract_from flat_map].
  rewrite length_app, filter_app, length_app, sort_by_length.
  rewrite page_lines_length, IH. reflexivity.
Qed.

Lemma StronglySorted_app {A : Type} (R : A -> A -> Prop) (l1 l2 : list A) :
  StronglySorted R l1 -> StronglySorted R l2 ->
  (forall x y, In x l1 -> In y l2 -> R x y) ->
  StronglySorted R (l1 ++ l2).
Proof.
  induction 1 as [|x l1 Hs IH Hall]; intros H2 Hcross; [exact H2|].
  cbn [app]. constructor.
  - apply IH; [exact H2|]. intros a b Ha Hb. apply Hcross; [right|]; assumption.
  - apply Forall_app. split; [exact Hall|].
    rewrite Forall_forall. intros y Hy. apply Hcross; [left; reflexivity | exact Hy].
Qed.

Lemma StronglySorted_const {A : Type} (R : A -> A -> Prop) (l : list A) :
  (forall x y, In x l -> In y l -> R x y) -> StronglySorted R l.
Proof.
  induction l as [|x l IH]; intros H; constructor.
  - apply IH. intros a b Ha Hb. apply H; right; assumption.
  - rewrite Forall_forall. intros y Hy. apply H; [left; reflexivity | right; exact Hy].
Qed.

Lemma extract_from_page_order pages : forall pn,
  StronglySorted (fun a b => (page_num a <= page_num b)%nat)
                 (extract_from pn pages).
Proof.
  induction pages as [|pg rest IH]; intros pn; [constructor|].
  cbn [extract_from].
  assert (Hpn : forall x, In x (sort_by top (page_lines pn (text_blocks pg))) ->
                          page_num x = pn).
  { intros x Hx. apply (Permutation_in _ (sort_by_perm top _)) in Hx.
    pose proof (page_lines_page_num pn (text_blocks pg)) as Hall.
    rewrite Forall_forall in Hall. exact (Hall x Hx). }
  apply StronglySorted_app; [|apply IH|].
  - apply StronglySorted_const. intros x y Hx Hy.
    rewrite (Hpn x Hx), (Hpn y Hy). apply le_n.
  - intros x y Hx Hy. rewrite (Hpn x Hx).
    pose proof (extract_from_page_range (S pn) rest) as Hall.
    rewrite Forall_forall in Hall. specialize (Hall y Hy). lia.
Qed.

(** X1: every line record has a text that is not empty and has no
    white space character, of Python's white space, at either end: it
    does not start with one, no suffix of it is white space only, and
    stripping it again changes nothing. *)
Theorem line_text_trimmed (doc : Doc) (line : Line) :
  In line (all_line_positions doc) ->
  text line <> EmptyString
  /\ Text.strip (text line) = text line
  /\ Text.space_prefix (text line) = None
  /\ (forall u v, text line = (u ++ v)%string ->
                  Text.all_space v = true -> v = EmptyString).
Proof.
  intros Hin.
  destruct (extract_from_source _ _ _ Hin) as [page [b [_ [_ [_ [Hl Hne]]]]]].
  rewrite Hl. cbn [text].
  split; [exact Hne|]. split; [apply strip_idempotent|].
  split.
  - unfold Text.strip. apply rstrip_clean_start, lstrip_clean_start.
  - intros u v. unfold Text.strip. apply rstrip_clean_end.
Qed.

Lemma line_text_trimmed_witness :
  "a"%string <> EmptyString
  /\ Text.strip "a" = "a"%string
  /\ Text.space_prefix "a" = None
  /\ (forall u v, "a"%string = (u ++ v)%string ->
                  Text.all_space v = true -> v = EmptyString).
Proof.
  apply (line_text_trimmed unicode_blanks (mkLine 30 40 "a" 0)).
  vm_compute. left. reflexivity.
Defined.

Lemma page_lines_records pn blocks :
  page_lines pn blocks = map (record_of pn) (filter nonblank blocks).
Proof.
  induction blocks as [|b rest IH]; [reflexivity|].
  cbn [page_lines filter]. rewrite truthy_strip. unfold nonblank at 1.
  destruct (Text.truthy (Text.strip (block_text b))); cbn [map];
    rewrite IH; reflexivity.
Qed.

Lemma extract_from_records pages : forall pn,
  Permutation (extract_from pn pages)
              (flat_map (fun np => map (record_of (fst np))
                                       (filter nonblank (text_blocks (snd np))))
                        (combine (seq pn (List.length pages)) pages)).
Proof.
  induction pages as [|pg rest IH]; intros pn; [reflexivity|].
  cbn [extract_from List.length seq combine flat_map fst snd].
  apply Permutation_app; [|apply IH].
  rewrite sort_by_perm, page_lines_records. reflexivity.
Qed.

(** X2: the line records that the extractor returns are, up to their
    order within a page, the records of the blocks whose stripped text
    is not empty: one record per such block, with the top, the bottom
    and the stripped text of the block and the number of its page; no
    blank block gives a record and no record is made up or repeated.
    The records come in ascending order of page number. *)
Theorem one_record_per_nonblank_block (doc : Doc) :
  Permutation (all_line_positions doc) (records_of_blocks doc)
  /\ List.length (all_line_positions doc)
     = List.length (filter nonblank (flat_map text_blocks doc))
  /\ StronglySorted (fun a b => (page_num a <= page_num b)%nat)
                    (all_line_positions doc).
Proof.
  split; [apply (extract_from_records doc 0)|].
  split; [apply extract_from_length | apply extract_from_page_order].
Qed.

Example unicode_blanks_records :
  all_line_positions unicode_blanks = [mkLine 30 40 "a" 0].
Proof. vm_compute. reflexivity. Qed.

(** ** Rounding *)

(** X3: the rounded gap is a multiple of one half within a quarter of
    the gap; equal gaps round to the same value, and a larger gap never
    rounds to a smaller value. *)
Theorem rounding_nearest_monotone (x y : Q) :
  round_half x * 2 == inject_Z (py_round (x * 2))
  /\ round_half x - (1 # 4) <= x <= round_half x + (1 # 4)
  /\ (x == y -> round_half x = round_half y)
  /\ (x <= y -> round_half x <= round_half y).
Proof.
  split; [apply round_half_doubled|].
  split; [apply round_half_nearest|].
  split; [apply round_half_compat | apply round_half_monotone].
Qed.

Lemma rounding_nearest_monotone_witness :
  round_half (13 # 10) = round_half (26 # 20)
  /\ round_half (13 # 10) <= round_half (9 # 5).
Proof.
  destruct (rounding_nearest_monotone (13 # 10) (26 # 20)) as [_ [_ [Heq _]]].
  destruct (rounding_nearest_monotone (13 # 10) (9 # 5)) as [_ [_ [_ Hle]]].
  split.
  - apply Heq. reflexivity.
  - apply Hle. unfold Qle. cbn. lia.
Defined.

(** ** Grouping *)

Lemma rounding_to_snoc_same k e es :
  round_half (diff e) == k -> rounding_to k (es ++ [e]) = rounding_to k es ++ [e].
Proof.
  intros H. unfold rounding_to. rewrite filter_app. cbn [filter].
  apply Qeq_bool_iff in H. rewrite H. reflexivity.
Qed.

Lemma rounding_to_snoc_other k e es :
  ~ round_half (diff e) == k -> rounding_to k (es ++ [e]) = rounding_to k es.
Proof.
  intros H. unfold rounding_to. rewrite filter_app. cbn [filter].
  apply Qeq_bool_false_iff in H. rewrite H. apply app_nil_r.
Qed.

(** Appending to the dictionary keeps every list equal to the entries
    of its key. *)
Lemma groups_append_contents e done groups :
  Forall (fun g => snd g = rounding_to (fst g) done) groups ->
  keys_distinct fst groups ->
  (Forall (fun g => ~ fst g == round_half (diff e)) groups ->
   rounding_to (round_half (diff e)) done = []) ->
  Forall (fun g => snd g = rounding_to (fst g) (done ++ [e]))
         (groups_append (round_half (diff e)) e groups).
Proof.
  induction groups as [|[k' items] rest IH]; intros Hc Hd Hnew.
  - cbn [groups_append]. constructor; [|constructor]. cbn [fst snd].
    rewrite rounding_to_snoc_same by reflexivity.
    rewrite Hnew by constructor. reflexivity.
  - inversion Hc as [|? ? Hitems Hrest]; subst. cbn [fst snd] in Hitems.
    destruct Hd as [Hk' Hdrest]. cbn [fst] in Hk'.
    cbn [groups_append].
    destruct (Qeq_bool k' (round_half (diff e))) eqn:E.
    + apply Qeq_bool_iff in E. constructor.
      * cbn [fst snd]. rewrite rounding_to_snoc_same by (symmetry; exact E).
        rewrite Hitems. reflexivity.
      * rewrite Forall_forall in *. intros g Hg.
        rewrite rounding_to_snoc_other; [exact (Hrest g Hg)|].
        intros H. apply (Hk' g Hg). rewrite E, H. reflexivity.
    + apply Qeq_bool_false_iff in E. constructor.
      * cbn [fst snd]. rewrite rounding_to_snoc_other; [exact Hitems|].
        intros H. apply E. symmetry. exact H.
      * apply IH; [exact Hrest | exact Hdrest|].
        intros Hall. apply Hnew. constructor; [exact E | exact Hall].
Qed.

Lemma groups_append_nonempty k e groups :
  Forall (fun g => snd g <> []) groups ->
  Forall (fun g => snd g <> []) (groups_append k e groups).
Proof.
  induction 1 as [|[k' items] rest Hne Hrest IH]; cbn [groups_append].
  - repeat constructor. discriminate.
  - destruct (Qeq_bool k' k); constructor; auto.
    cbn [snd]. intro H. apply app_eq_nil in H. destruct H; discriminate.
Qed.

Lemma groups_append_key_kept (P : Q -> Prop) k e groups :
  Exists (fun g => P (fst g)) groups ->
  Exists (fun g => P (fst g)) (groups_append k e groups).
Proof.
  induction 1 as [[k' items] rest Hp | [k' items] rest Hex IH];
    cbn [groups_append]; destruct (Qeq_bool k' k).
  - apply Exists_cons_hd. exact Hp.
  - apply Exists_cons_hd. exact Hp.
  - apply Exists_cons_tl. exact Hex.
  - apply Exists_cons_tl. exact IH.
Qed.

Lemma groups_append_key_new k e groups :
  Exists (fun g => k == fst g) (groups_append k e groups).
Proof.
  induction groups as [|[k' items] rest IH]; cbn [groups_append].
  - apply Exists_cons_hd. reflexivity.
  - destruct (Qeq_bool k' k) eqn:E.
    + apply Exists_cons_hd. apply Qeq_bool_iff in E. symmetry. exact E.
    + apply Exists_cons_tl. exact IH.
Qed.

(** The state of the dictionary after the entries [done]. *)
Lemma group_loop_grouped es : forall done groups,
  keys_distinct fst groups ->
  Forall (fun g => snd g = rounding_to (fst g) done) groups ->
  Forall (fun g => snd g <> []) groups ->
  Forall (fun e => Exists (fun g => round_half (diff e) == fst g) groups) done ->
  let result := group_loop es groups in
  keys_distinct fst result
  /\ Forall (fun g => snd g = rounding_to (fst g) (done ++ es)) result
  /\ Forall (fun g => snd g <> []) result
  /\ Forall (fun e => Exists (fun g => round_half (diff e) == fst g) result)
            (done ++ es).
Proof.
  induction es as [|e es IH]; intros done groups Hd Hc Hne Hcov.
  - cbn [group_loop]. rewrite app_nil_r. auto.
  - cbn [group_loop].
    replace (done ++ e :: es) with ((done ++ [e]) ++ es)
      by (rewrite <- app_assoc; reflexivity).
    apply IH.
    + apply groups_append_distinct, Hd.
    + apply groups_append_contents; [exact Hc | exact Hd|].
      intros Hall. unfold rounding_to. apply filter_none.
      rewrite Forall_forall in *. intros e' He'.
      apply Qeq_bool_false_iff. intros Hk.
      specialize (Hcov e' He'). apply Exists_exists in Hcov.
      destruct Hcov as [g [Hg Hkey]].
      apply (Hall g Hg). rewrite <- Hkey. exact Hk.
    + apply groups_append_nonempty, Hne.
    + apply Forall_app. split.
      * eapply Forall_impl; [|exact Hcov].
        intros e' He'. apply groups_append_key_kept with (P := fun k => _ == k).
        exact He'.
      * repeat constructor. apply groups_append_key_new.
Qed.

(** X4: the dictionary built by [group_whitespace] has pairwise
    different keys and no empty list; the list under a key holds exactly
    the entries whose rounded gap is that key, in their input order, and
    the rounded gap of every entry is a key. *)
Theorem groups_partition_entries (whitespace_diff : list Entry) :
  let groups := group_whitespace whitespace_diff in
  keys_distinct fst groups
  /\ Forall (fun g => snd g = rounding_to (fst g) whitespace_diff) groups
  /\ Forall (fun g => snd g <> []) groups
  /\ Forall (fun e => Exists (fun g => round_half (diff e) == fst g) groups)
            whitespace_diff.
Proof.
  unfold group_whitespace.
  apply (group_loop_grouped whitespace_diff [] []); constructor.
Qed.

(** ** The second sort *)

(** X5: because the entries are sorted by gap before they are grouped
    and rounding is monotone, the dictionary is filled in ascending
    order of its keys: sorting its items by key leaves them as they
    are. *)
Theorem second_sort_keeps_order (whitespace_diff : list Entry) :
  sorted_groups_of whitespace_diff
  = group_whitespace (sort_by diff whitespace_diff)
  /\ StronglySorted (key_lt fst)
                    (group_whitespace (sort_by diff whitespace_diff)).
Proof.
  assert (Hasc : StronglySorted (key_lt fst)
                   (group_whitespace (sort_by diff whitespace_diff))).
  { unfold group_whitespace. apply group_loop_ascending.
    - apply (sort_by_sorted diff).
    - constructor.
    - constructor. }
  split; [|exact Hasc].
  unfold sorted_groups_of. apply sort_by_sorted_id.
  eapply StronglySorted_weaken; [|exact Hasc].
  intros x y. unfold key_lt, key_le. apply Qlt_le_weak.
Qed.

(** ** How far the selection loop goes *)

Lemma settled_incl b1 b2 e : incl b1 b2 -> settled b1 e -> settled b2 e.
Proof. unfold settled. intros Hi [H | H]; [left | right]; apply Hi, H. Qed.

Lemma select_in_group_progress n items : forall st,
  well_counted st ->
  (boundary_count st < n)%Z ->
  let st' := select_in_group n items st in
  well_counted st'
  /\ (boundary_count st <= boundary_count st' <= n)%Z
  /\ incl (segment_boundaries st) (segment_boundaries st')
  /\ ((boundary_count st' < n)%Z ->
      Forall (settled (segment_boundaries st')) items).
Proof.
  unfold well_counted, boundary_count.
  induction items as [|e rest IH]; intros st Hwc Hlt; cbn [select_in_group].
  - split; [exact Hwc|]. split; [lia|]. split; [apply incl_refl|].
    intros _. constructor.
  - destruct (index_in (start_idx e) (segment_boundaries st)) eqn:E;
      cbn [negb].
    + destruct (IH st Hwc Hlt) as [Hwc' [Hle [Hincl Hall]]].
      split; [exact Hwc'|]. split; [exact Hle|]. split; [exact Hincl|].
      intros Hlt'. constructor; [|exact (Hall Hlt')].
      left. apply Hincl. apply index_in_spec. exact E.
    + cbn [current_group_count].
      destruct (Z.geb_spec (current_group_count st + 1) (n - 1)) as [Hge | Hnge].
      * cbn [segment_boundaries current_group_count].
        rewrite length_app. cbn [List.length].
        split; [lia|]. split; [lia|].
        split; [apply incl_appl, incl_refl|].
        intros Hlt'. lia.
      * match goal with
        | |- context [select_in_group n rest ?s] =>
            destruct (IH s) as [Hwc' [Hle [Hincl Hall]]]
        end.
        { cbn [segment_boundaries current_group_count].
          rewrite length_app. cbn [List.length]. lia. }
        { cbn [segment_boundaries]. rewrite length_app. cbn [List.length]. lia. }
        cbn [segment_boundaries] in Hincl, Hle.
        rewrite length_app in Hle. cbn [List.length] in Hle.
        split; [exact Hwc'|]. split; [lia|]. split.
        -- intros x Hx. apply Hincl. apply in_or_app. left. exact Hx.
        -- intros Hlt'. constructor; [|exact (Hall Hlt')].
           right. apply Hincl. apply in_or_app. right. left. reflexivity.
Qed.

Lemma select_groups_progress n groups : forall st,
  well_counted st ->
  let st' := select_groups n groups st in
  well_counted st'
  /\ (boundary_count st <= boundary_count st'
      <= Z.max n (boundary_count st))%Z
  /\ incl (segment_boundaries st) (segment_boundaries st')
  /\ ((boundary_count st' < n)%Z ->
      Forall (settled (segment_boundaries st')) (flat_entries groups)).
Proof.
  unfold flat_entries.
  induction groups as [|[val items] rest IH]; intros st Hwc;
    cbn [select_groups].
  - split; [exact Hwc|]. split; [lia|]. split; [apply incl_refl|].
    intros _. constructor.
  - fold (boundary_count st).
    destruct (Z.geb_spec (boundary_count st) n) as [Hge | Hlt].
    + split; [exact Hwc|]. split; [lia|]. split; [apply incl_refl|].
      intros Hlt. lia.
    + set (st1 := match current_whitespace_group st with
                  | None => _
                  | Some _ => st
                  end).
      assert (Hb1 : segment_boundaries st1 = segment_boundaries st)
        by (subst st1; destruct (current_whitespace_group st); reflexivity).
      assert (Hc1 : current_group_count st1 = current_group_count st)
        by (subst st1; destruct (current_whitespace_group st); reflexivity).
      assert (Hn1 : boundary_count st1 = boundary_count st)
        by (unfold boundary_count; rewrite Hb1; reflexivity).
      assert (Hwc1 : well_counted st1)
        by (unfold well_counted; rewrite Hb1, Hc1; exact Hwc).
      assert (Hlt1 : (boundary_count st1 < n)%Z) by lia.
      destruct (select_in_group_progress n items st1 Hwc1 Hlt1)
        as [Hwc2 [Hle2 [Hincl2 Hall2]]].
      destruct (IH (select_in_group n items st1) Hwc2)
        as [Hwc3 [Hle3 [Hincl3 Hall3]]].
      rewrite Hb1 in Hincl2.
      split; [exact Hwc3|]. split; [lia|].
      split; [eapply incl_tran; eassumption|].
      intros Hlt3. cbn [map List.concat]. apply Forall_app. split.
      * eapply Forall_impl; [|apply Hall2; lia].
        intros e. apply settled_incl. exact Hincl3.
      * apply Hall3. exact Hlt3.
Qed.

Lemma selected_progress ws n :
  (1 <= Z.of_nat (List.length (selected_boundaries ws n)) <= Z.max n 1)%Z
  /\ ((Z.of_nat (List.length (selected_boundaries ws n)) < n)%Z ->
      Forall (settled (selected_boundaries ws n))
             (flat_entries (sorted_groups_of ws))).
Proof.
  unfold selected_boundaries.
  destruct (select_groups_progress n (sorted_groups_of ws) init_sel)
    as [_ [Hle [_ Hall]]]; [reflexivity|].
  unfold boundary_count in *. cbn [init_sel segment_boundaries List.length] in Hle.
  split; [lia | exact Hall].
Qed.

Lemma ensure_final_length boundaries total :
  (List.length boundaries <= List.length (ensure_final boundaries total)
   <= List.length boundaries + 1)%nat.
Proof.
  unfold ensure_final.
  destruct (negb (last boundaries 0 =? total)%nat);
    [rewrite length_app; cbn [List.length]|]; lia.
Qed.

(** X6: for a request of at least one segment the boundary list never
    has more than [num_segments + 1] elements: a mismatch always means
    too few segments, and the message then names fewer segments than
    were requested. *)
Theorem never_more_than_requested (doc : Doc) (num_segments : Z) :
  (1 <= num_segments)%Z ->
  (Z.of_nat (List.length (boundaries_of doc num_segments))
   <= num_segments + 1)%Z
  /\ (count_mismatch (boundaries_of doc num_segments) num_segments = true ->
      (0 <= Z.of_nat (List.length (boundaries_of doc num_segments)) - 1
       < num_segments)%Z).
Proof.
  intros Hn.
  assert (Hlen : (1 <= Z.of_nat (List.length (boundaries_of doc num_segments))
                  <= num_segments + 1)%Z).
  { unfold boundaries_of, analyze_whitespace.
    destruct (selected_progress (whitespace_of (all_line_positions doc))
                                num_segments) as [Hsel _].
    pose proof (ensure_final_length
                  (selected_boundaries (whitespace_of (all_line_positions doc))
                                       num_segments)
                  (List.length (all_line_positions doc))) as Hfin.
    lia. }
  split; [lia|].
  unfold count_mismatch. intros Hmis.
  apply negb_true_iff, Z.eqb_neq in Hmis. lia.
Qed.

Lemma never_more_than_requested_witness :
  (Z.of_nat (List.length (boundaries_of two_lines 3)) <= 3 + 1)%Z
  /\ (0 <= Z.of_nat (List.length (boundaries_of two_lines 3)) - 1 < 3)%Z.
Proof.
  destruct (never_more_than_requested two_lines 3) as [Hle Hmis]; [lia|].
  split; [exact Hle|]. apply Hmis. vm_compute. reflexivity.
Defined.

(** X7: a document is split into two segments exactly when it has at
    least three line records: the entry between records 0 and 1 never
    gives a boundary, any other entry does. *)
Theorem two_segments_iff_three_lines (doc : Doc) :
  count_mismatch (boundaries_of doc 2) 2 = false
  <-> (3 <= List.length (all_line_positions doc))%nat.
Proof.
  destruct (boundaries_shape doc 2) as [picked [Hsub [Hrange Hb]]].
  unfold count_mismatch. rewrite negb_false_iff, Z.eqb_eq, Hb.
  cbn [List.length]. rewrite length_app, length_map.
  set (lines := all_line_positions doc) in *.
  split.
  - intros Hlen. destruct picked as [|e picked].
    + destruct (List.length lines =? 0)%nat; cbn [List.length] in Hlen; lia.
    + inversion Hrange; subst. lia.
  - intros Htotal.
    destruct (selected_progress (whitespace_of lines) 2) as [Hle Hall].
    assert (Hsel : selected_boundaries (whitespace_of lines) 2
                   = 0%nat :: map end_idx picked).
    { unfold boundaries_of, analyze_whitespace in Hb. fold lines in Hb.
      unfold ensure_final in Hb.
      destruct (negb (last (selected_boundaries (whitespace_of lines) 2) 0
                      =? List.length lines)%nat).
      - destruct (List.length lines =? 0)%nat eqn:E0.
        + apply Nat.eqb_eq in E0. lia.
        + change (0%nat :: map end_idx picked ++ [List.length lines])
            with ((0%nat :: map end_idx picked) ++ [List.length lines]) in Hb.
          apply app_inj_tail in Hb. apply Hb.
      - assert (Hlast : last (selected_boundaries (whitespace_of lines) 2) 0%nat
                        = List.length lines).
        { rewrite Hb. destruct (List.length lines =? 0)%nat eqn:E0.
          - apply Nat.eqb_eq in E0. lia.
          - change (0%nat :: map end_idx picked ++ [List.length lines])
              with ((0%nat :: map end_idx picked) ++ [List.length lines]).
            apply last_last. }
        exfalso.
        destruct (selected_shape (whitespace_of lines) 2)
          as [picked' [Hsub' [Hb' Hne']]].
        rewrite Hb' in Hlast.
        destruct (last_cons 0%nat (map end_idx picked') 0%nat)
          as [[_ Hl] | Hin]; [lia|].
        rewrite Hlast in Hin. apply in_map_iff in Hin.
        destruct Hin as [e [He Hin]].
        assert (Hws : In e (whitespace_of lines)).
        { eapply Permutation_in; [apply sorted_groups_flat|].
          eapply subseq_In; eassumption. }
        pose proof (whitespace_of_entries lines) as Hent.
        rewrite Forall_forall in Hent. specialize (Hent e Hws). lia. }
    rewrite Hsel in Hle, Hall. cbn [List.length] in Hle, Hall.
    rewrite length_map in Hle, Hall.
    destruct (Nat.eqb_spec (List.length lines) 0) as [E0 | E0]; [lia|].
    cbn [List.length].
    destruct picked as [|e picked]; [exfalso | cbn [List.length] in *; lia].
    assert (Hin : In (entry_at lines 2)
                     (flat_entries (sorted_groups_of (whitespace_of lines)))).
    { eapply Permutation_in; [symmetry; apply sorted_groups_flat|].
      unfold whitespace_of. apply in_map, in_seq. lia. }
    specialize (Hall ltac:(cbn; lia)).
    rewrite Forall_forall in Hall. specialize (Hall _ Hin).
    destruct Hall as [H | H]; cbn in H; lia.
Qed.

Lemma two_segments_iff_three_lines_witness :
  count_mismatch (boundaries_of six_even 2) 2 = false.
Proof.
  apply (proj2 (two_segments_iff_three_lines six_even)).
  vm_compute. lia.
Defined.

(** ** No boundary twice *)

Lemma subseq_map {A B : Type} (f : A -> B) (l1 l2 : list A) :
  subseq l1 l2 -> subseq (map f l1) (map f l2).
Proof. induction 1; cbn [map]; auto. Qed.

Lemma subseq_NoDup {A : Type} (l1 l2 : list A) :
  subseq l1 l2 -> NoDup l2 -> NoDup l1.
Proof.
  induction 1 as [|x l1 l2 Hs IH|x l1 l2 Hs IH]; intros Hnd.
  - constructor.
  - inversion Hnd; subst. auto.
  - inversion Hnd as [|? ? Hx Hnd']; subst. constructor; [|auto].
    intro Hin. apply Hx. eapply subseq_In; eassumption.
Qed.

Lemma whitespace_of_ends lines :
  map end_idx (whitespace_of lines) = seq 1 (List.length lines - 1).
Proof.
  unfold whitespace_of. rewrite map_map. cbn [entry_at end_idx].
  apply map_id.
Qed.

(** X8: on every run the boundary list has no repeated element and
    none above the number of line records; the boundaries between the
    first and the last are at least 2 and below the number of line
    records. *)
Theorem boundaries_distinct_in_range (doc : Doc) (num_segments : Z) :
  let total := List.length (all_line_positions doc) in
  let boundaries := boundaries_of doc num_segments in
  NoDup boundaries
  /\ Forall (fun b => (b <= total)%nat) boundaries
  /\ Forall (fun b => b = 0%nat \/ b = total \/ (2 <= b < total)%nat)
            boundaries.
Proof.
  intros total boundaries. subst total boundaries.
  destruct (boundaries_shape doc num_segments) as [picked [Hsub [Hrange ->]]].
  set (lines := all_line_positions doc) in *.
  assert (Hends : NoDup (map end_idx picked)).
  { apply (subseq_NoDup _ _ (subseq_map end_idx _ _ Hsub)).
    eapply Permutation_NoDup.
    - symmetry. apply Permutation_map, sorted_groups_flat.
    - rewrite whitespace_of_ends. apply seq_NoDup. }
  assert (Hr : Forall (fun b => (2 <= b < List.length lines)%nat)
                      (map end_idx picked)).
  { rewrite Forall_map. exact Hrange. }
  rewrite Forall_forall in Hr.
  split; [|split].
  - constructor.
    + intros Hin. apply in_app_or in Hin. destruct Hin as [Hin | Hin].
      * specialize (Hr _ Hin). lia.
      * destruct (Nat.eqb_spec (List.length lines) 0) as [E | E];
          [exact Hin|]. destruct Hin as [Hin | []]. lia.
    + destruct (List.length lines =? 0)%nat;
        [rewrite app_nil_r; exact Hends|].
      eapply Permutation_NoDup; [apply Permutation_cons_append|].
      constructor; [|exact Hends].
      intros Hin. specialize (Hr _ Hin). lia.
  - constructor; [lia|]. apply Forall_app. split.
    + rewrite Forall_forall. intros b Hb. specialize (Hr b Hb). lia.
    + destruct (List.length lines =? 0)%nat; repeat constructor.
  - constructor; [left; reflexivity|]. apply Forall_app. split.
    + rewrite Forall_forall. intros b Hb. specialize (Hr b Hb). lia.
    + destruct (List.length lines =? 0)%nat; [constructor|].
      constructor; [right; left; reflexivity | constructor].
Qed.

(** ** The pages of an output document *)

Lemma segment_pages_of_source lines s e pages : forall pn,
  Forall (page_of_source pages) (segment_pages lines s e pn pages).
Proof.
  induction pages as [|page rest IH]; intros pn; cbn [segment_pages];
    [constructor|].
  assert (Hrest : Forall (page_of_source (page :: rest))
                         (segment_pages lines s e (S pn) rest)).
  { eapply Forall_impl; [|apply IH].
    intros op [Hne [pg [Hin Hdim]]]. split; [exact Hne|].
    exists pg. split; [right; exact Hin | exact Hdim]. }
  destruct (page_segment_lines lines s e pn) as [|l ls]; [exact Hrest|].
  constructor; [|exact Hrest].
  split; [cbn; discriminate|].
  exists page. cbn. auto.
Qed.

Lemma segment_pages_length lines s e pages : forall pn,
  (List.length (segment_pages lines s e pn pages) <= List.length pages)%nat.
Proof.
  induction pages as [|page rest IH]; intros pn; cbn [segment_pages];
    [apply le_n|].
  specialize (IH (S pn)).
  destruct (page_segment_lines lines s e pn); cbn [List.length]; lia.
Qed.

(** The events of the loop over the segments. *)
Lemma segment_loop_events doc lines boundaries prefix dir indices :
  let events :=
    flat_map (segment_events doc lines boundaries prefix dir) indices in
  subseq (files_written events) (map (output_path_of dir prefix) indices)
  /\ Forall (fun pdf => pdf <> [] /\ Forall (page_of_source doc) pdf
                        /\ (List.length pdf <= List.length doc)%nat)
            (saved_pdfs events)
  /\ existsb is_makedirs events = false.
Proof.
  cbn zeta. induction indices as [|i rest IH]; cbn [flat_map map].
  - split; [constructor|]. split; [constructor | reflexivity].
  - destruct IH as [Hfiles [Hpdfs Hmk]].
    unfold files_written, saved_pdfs in *.
    rewrite !flat_map_app, existsb_app.
    unfold segment_events at 1 3 5.
    destruct (output_pdf doc lines boundaries i) as [|op pdf] eqn:E.
    + cbn [flat_map app existsb orb].
      split; [apply subseq_skip; exact Hfiles|].
      split; [exact Hpdfs | exact Hmk].
    + cbn [flat_map app existsb orb is_makedirs].
      split; [apply subseq_take; exact Hfiles|].
      split; [|exact Hmk].
      constructor; [|exact Hpdfs].
      split; [discriminate|]. rewrite <- E. unfold output_pdf.
      split; [apply segment_pages_of_source | apply segment_pages_length].
Qed.

(** ** The events of a run *)

Lemma segment_pdf_success doc pdf_dir n prefix odir :
  count_mismatch (boundaries_of doc n) n = false ->
  segment_pdf doc pdf_dir n prefix odir
  = MakeDirs (resolve_dir pdf_dir odir)
    :: flat_map (segment_events doc (all_line_positions doc)
                                (boundaries_of doc n) prefix
                                (resolve_dir pdf_dir odir))
                (seq 0 (Z.to_nat n))
    ++ [Print (completed_message n)].
Proof.
  unfold segment_pdf, boundaries_of, analyze_whitespace.
  intros H. rewrite H. reflexivity.
Qed.

Lemma subseq_nil_inv {A : Type} (l : list A) : subseq l [] -> l = [].
Proof. intros H. inversion H. reflexivity. Qed.

(** The shape of the events of any run. *)
Lemma segment_pdf_events (doc : Doc) (pdf_dir : string)
        (num_segments : Z) (output_prefix : string)
        (output_dir : option string) :
  let events :=
    segment_pdf doc pdf_dir num_segments output_prefix output_dir in
  let dir := resolve_dir pdf_dir output_dir in
  (exists tail, events = MakeDirs dir :: tail
                /\ existsb is_makedirs tail = false)
  /\ subseq (files_written events)
            (map (output_path_of dir output_prefix)
                 (seq 0 (Z.to_nat num_segments)))
  /\ Forall (fun pdf => pdf <> [] /\ Forall (page_of_source doc) pdf
                        /\ (List.length pdf <= List.length doc)%nat)
            (saved_pdfs events).
Proof.
  intros events dir. subst events dir.
  destruct (count_mismatch (boundaries_of doc num_segments) num_segments)
    eqn:Hmis.
  - rewrite (segment_pdf_mismatch _ _ _ _ _ Hmis).
    split; [eexists; split; reflexivity|].
    split; [apply subseq_nil_l | constructor].
  - rewrite (segment_pdf_success _ _ _ _ _ Hmis).
    destruct (segment_loop_events doc (all_line_positions doc)
                (boundaries_of doc num_segments) output_prefix
                (resolve_dir pdf_dir output_dir)
                (seq 0 (Z.to_nat num_segments)))
      as [Hfiles [Hpdfs Hmk]].
    split.
    + eexists. split; [reflexivity|].
      rewrite existsb_app, Hmk. reflexivity.
    + unfold files_written, saved_pdfs in *.
      cbn [flat_map app]. rewrite !flat_map_app. cbn [flat_map].
      rewrite !app_nil_r. split; assumption.
Qed.

(** X9: whatever the outcome, a run creates at most the output
    directory, once and before anything else; the files it writes are
    some of [prefix1.pdf] ... [prefixN.pdf] in that directory, in this
    order; every document it saves has at least one page, at most as
    many pages as the source, and each of its pages carries text and has
    the size of a page of the source. *)
Theorem run_writes_named_segments (doc : Doc) (pdf_dir : string)
        (num_segments : Z) (output_prefix : string)
        (output_dir : option string) :
  let events :=
    segment_pdf doc pdf_dir num_segments output_prefix output_dir in
  let dir := resolve_dir pdf_dir output_dir in
  (exists tail, events = MakeDirs dir :: tail
                /\ existsb is_makedirs tail = false)
  /\ subseq (files_written events)
            (map (output_path_of dir output_prefix)
                 (seq 0 (Z.to_nat num_segments)))
  /\ Forall (fun pdf => pdf <> [] /\ Forall (page_of_source doc) pdf
                        /\ (List.length pdf <= List.length doc)%nat)
            (saved_pdfs events).
Proof.
  apply segment_pdf_events.
Qed.

Lemma selected_at_most_one ws n :
  (n <= 1)%Z -> selected_boundaries ws n = [0%nat].
Proof.
  intros Hn.
  destruct (selected_progress ws n) as [Hlen _].
  destruct (selected_shape ws n) as [picked [_ [Hb _]]].
  rewrite Hb in *. cbn [List.length] in Hlen. rewrite length_map in Hlen.
  destruct picked; [reflexivity | cbn [List.length] in Hlen; lia].
Qed.

Lemma boundaries_at_most_one doc n :
  (n <= 1)%Z ->
  boundaries_of doc n
  = if (List.length (all_line_positions doc) =? 0)%nat then [0%nat]
    else [0%nat; List.length (all_line_positions doc)].
Proof.
  intros Hn. unfold boundaries_of, analyze_whitespace.
  rewrite selected_at_most_one by exact Hn.
  unfold ensure_final. cbn [last].
  destruct (List.length (all_line_positions doc)); reflexivity.
Qed.

(** X10: a request for no or a negative number of segments never
    writes a file; the count check passes only for zero segments of a
    document without line records. *)
Theorem no_segments_requested (doc : Doc) (pdf_dir : string)
        (num_segments : Z) (output_prefix : string)
        (output_dir : option string) :
  (num_segments <= 0)%Z ->
  files_written
    (segment_pdf doc pdf_dir num_segments output_prefix output_dir) = []
  /\ (count_mismatch (boundaries_of doc num_segments) num_segments = false
      <-> num_segments = 0%Z /\ all_line_positions doc = []).
Proof.
  intros Hn. split.
  - destruct (count_mismatch (boundaries_of doc num_segments) num_segments)
      eqn:Hmis.
    + rewrite (segment_pdf_mismatch _ _ _ _ _ Hmis). reflexivity.
    + rewrite (segment_pdf_success _ _ _ _ _ Hmis).
      replace (Z.to_nat num_segments) with 0%nat by lia. reflexivity.
  - unfold count_mismatch. rewrite negb_false_iff, Z.eqb_eq.
    rewrite boundaries_at_most_one by lia.
    destruct (all_line_positions doc) as [|l ls]; cbn [List.length Nat.eqb].
    + split; [intros H; split; [lia | reflexivity] | intros [-> _]; reflexivity].
    + split; [intros H; lia | intros [_ H]; discriminate H].
Qed.

Lemma no_segments_requested_witness :
  files_written (segment_pdf two_lines "/doc" 0 "segment_" None) = [].
Proof.
  apply (no_segments_requested two_lines "/doc" 0 "segment_" None). lia.
Defined.

(** ** One segment *)

Lemma flat_map_ext_in {A B : Type} (f g : A -> list B) (l : list A) :
  (forall x, In x l -> f x = g x) -> flat_map f l = flat_map g l.
Proof.
  induction l as [|x l IH]; intros H; [reflexivity|].
  cbn [flat_map]. rewrite (H x) by (left; reflexivity).
  rewrite IH; [reflexivity|]. intros y Hy. apply H. right. exact Hy.
Qed.

(** Read page by page, the result of the extractor is itself. *)
Lemma extract_from_by_page pages : forall pn,
  flat_map (fun p => filter (fun line => Nat.eqb (page_num line) p)
                            (extract_from pn pages))
           (seq pn (List.length pages))
  = extract_from pn pages.
Proof.
  induction pages as [|pg rest IH]; intros pn; [reflexivity|].
  cbn [List.length seq flat_map].
  rewrite (filter_extract_from (pg :: rest) pn pn) by lia.
  rewrite Nat.sub_diag. cbn [nth].
  rewrite (flat_map_ext_in _
             (fun p => filter (fun line => Nat.eqb (page_num line) p)
                              (extract_from (S pn) rest))).
  - rewrite IH. reflexivity.
  - intros p Hp. apply in_seq in Hp.
    rewrite (filter_extract_from (pg :: rest) pn p) by lia.
    rewrite (filter_extract_from rest (S pn) p) by lia.
    replace (p - pn)%nat with (S (p - S pn)) by lia. reflexivity.
Qed.

Lemma slice_all {A : Type} (l : list A) : slice l 0 (List.length l) = l.
Proof.
  unfold slice. rewrite Nat.sub_0_r, skipn_0. apply firstn_all.
Qed.

(** X11: a request for one segment of a document with at least one
    line record always succeeds: the boundaries are 0 and the number of
    records, and the only file written holds, page after page, the text
    of every record in the order of extraction. *)
Theorem one_segment_holds_every_line (doc : Doc) (pdf_dir : string)
        (output_prefix : string) (output_dir : option string) :
  all_line_positions doc <> [] ->
  let lines := all_line_positions doc in
  let dir := resolve_dir pdf_dir output_dir in
  let path := output_path_of dir output_prefix 0 in
  boundaries_of doc 1 = [0%nat; List.length lines]
  /\ exists pdf,
       segment_pdf doc pdf_dir 1 output_prefix output_dir
       = [MakeDirs dir; Save path pdf; Print (saved_message 0 path);
          Print (completed_message 1)]
       /\ List.concat (map out_texts pdf) = map insertion_of lines.
Proof.
  intros Hne lines dir path. subst lines.
  remember (all_line_positions doc) as lines eqn:Elines.
  assert (Hb : boundaries_of doc 1 = [0%nat; List.length lines]).
  { rewrite boundaries_at_most_one by lia. rewrite <- Elines.
    destruct lines; [contradiction | reflexivity]. }
  split; [exact Hb|].
  exists (segment_pages lines 0 (List.length lines) 0 doc).
  assert (Htexts : List.concat
                     (map out_texts
                          (segment_pages lines 0 (List.length lines) 0 doc))
                   = map insertion_of lines).
  { rewrite segment_pages_texts. f_equal.
    unfold page_segment_lines. rewrite slice_all.
    rewrite Elines. apply (extract_from_by_page doc 0). }
  split; [|exact Htexts].
  rewrite segment_pdf_success by (rewrite Hb; reflexivity).
  rewrite Hb, <- Elines. fold dir.
  change (Z.to_nat 1) with 1%nat. cbn [seq flat_map].
  unfold segment_events, output_pdf. cbn [nth Nat.add].
  destruct (segment_pages lines 0 (List.length lines) 0 doc) as [|op pdf].
  - exfalso. cbn in Htexts. destruct lines; [contradiction | discriminate].
  - reflexivity.
Qed.

Lemma one_segment_holds_every_line_witness :
  boundaries_of two_lines 1 = [0; 2]%nat.
Proof.
  destruct (one_segment_holds_every_line two_lines "/doc" "segment_" None)
    as [Hb _].
  - vm_compute. discriminate.
  - exact Hb.
Defined.

(** ** Increasing boundaries *)

Lemma firstn_plus {A : Type} (n m : nat) : forall l : list A,
  firstn (n + m) l = firstn n l ++ firstn m (skipn n l).
Proof.
  induction n as [|n IH]; intros l; [reflexivity|].
  destruct l as [|x l]; cbn [Nat.add firstn skipn app].
  - rewrite firstn_nil. reflexivity.
  - rewrite IH. reflexivity.
Qed.

Lemma slice_app {A : Type} (l : list A) (a b c : nat) :
  (a <= b)%nat -> (b <= c)%nat -> slice l a b ++ slice l b c = slice l a c.
Proof.
  intros Hab Hbc. unfold slice.
  replace (c - a)%nat with ((b - a) + (c - b))%nat by lia.
  rewrite firstn_plus, skipn_skipn.
  replace (b - a + a)%nat with b by lia. reflexivity.
Qed.

Lemma segment_slices_cons lines x y rest :
  segment_slices lines (x :: y :: rest)
  = slice lines x y :: segment_slices lines (y :: rest).
Proof.
  unfold segment_slices. cbn [List.length Nat.sub].
  rewrite Nat.sub_0_r. cbn [seq map nth Nat.add]. f_equal.
  rewrite <- seq_shift, map_map. apply map_ext. intros i. reflexivity.
Qed.

Lemma segment_slices_concat lines rest : forall x,
  StronglySorted lt (x :: rest) ->
  List.concat (segment_slices lines (x :: rest))
  = slice lines x (last (x :: rest) 0%nat)
  /\ (x <= last (x :: rest) 0%nat)%nat.
Proof.
  induction rest as [|y rest IH]; intros x Hs.
  - cbn [last]. split; [|apply le_n].
    unfold segment_slices, slice. cbn. rewrite Nat.sub_diag. reflexivity.
  - inversion Hs as [|? ? Hs' Hall]; subst.
    inversion Hall as [|? ? Hxy _]; subst.
    destruct (IH y Hs') as [Hcat Hle].
    rewrite segment_slices_cons. cbn [List.concat].
    change (last (x :: y :: rest) 0%nat) with (last (y :: rest) 0%nat).
    rewrite Hcat. split; [apply slice_app; lia | lia].
Qed.

(** X12: when the boundaries are increasing, the segments partition
    the line records: put together in the order of the segments, the
    records of the segments are the records of the document, each once
    and in the order of extraction. *)
Theorem increasing_boundaries_partition (doc : Doc) (num_segments : Z) :
  increasing (boundaries_of doc num_segments) ->
  List.concat (segment_slices (all_line_positions doc)
                              (boundaries_of doc num_segments))
  = all_line_positions doc.
Proof.
  intros Hinc.
  destruct (boundaries_first_last doc num_segments) as [Hfirst Hlast].
  destruct (boundaries_of doc num_segments) as [|x rest] eqn:E.
  - destruct (boundaries_shape doc num_segments) as [? [_ [_ H]]].
    rewrite E in H. discriminate H.
  - cbn [nth] in Hfirst. subst x.
    destruct (segment_slices_concat (all_line_positions doc) rest 0 Hinc)
      as [Hcat _].
    rewrite Hcat, Hlast. apply slice_all.
Qed.

Lemma increasing_boundaries_partition_witness :
  List.concat (segment_slices (all_line_positions six_even)
                              (boundaries_of six_even 3))
  = all_line_positions six_even.
Proof.
  apply (increasing_boundaries_partition six_even 3).
  unfold increasing.
  replace (boundaries_of six_even 3) with [0; 2; 4; 6]%nat
    by (vm_compute; reflexivity).
  repeat (constructor; try lia).
Defined.

(** ** The command line *)

(** X13: started from the command line, the script binds the value of
    [--output_dir] to the file name prefix: the only directory it
    ensures is the directory of the input file, and the files it writes
    are named by appending the segment number and [.pdf] to the value of
    [--output_dir], joined to the directory of the input file. *)
Theorem main_output_dir_is_prefix (doc : Doc) (pdf_dir : string)
        (args_segments : Z) (args_output_dir : string) :
  let events := main doc pdf_dir args_segments args_output_dir in
  (exists tail, events = MakeDirs pdf_dir :: tail
                /\ existsb is_makedirs tail = false)
  /\ subseq (files_written events)
            (map (fun i => path_join pdf_dir
                             (args_output_dir ++ Text.str_of_nat (i + 1)
                              ++ ".pdf")%string)
                 (seq 0 (Z.to_nat args_segments))).
Proof.
  unfold main.
  destruct (segment_pdf_events doc pdf_dir args_segments args_output_dir None)
    as [Hdir [Hfiles _]].
  split; [exact Hdir | exact Hfiles].
Qed.
